(** * Key extraction runner of tolgee-cli: [src/extractor/runner.ts]

    A shallow embedding of [extractKeysOfFiles] and [filterExtractionResult]
    together with the properties of the namespace-partitioned key map that
    they build.

    Conventions of the embedding:
    - an optional JS string ([string | undefined]) is an [option string];
      JS truthiness of such a value is [truthy];
    - a value of a [Map<string, string | null>] is an [option string] with
      [None] standing for [null];
    - the [FilteredKeys] object is created with [Object.create(null)], so it
      has no inherited property and is a finite map from property keys to
      buckets; property keys are the symbol [NullNamespace] or a string;
    - the [ExtractionResults] map is iterated with [values()], so its
      insertion order matters: it is an association list with the update
      discipline of a JS [Map];
    - a promise that settles is a [Settled] value; the order in which the
      per-file promises of [Promise.all] settle is an explicit schedule. *)

From stdpp Require Import gmap strings list fin_maps.


(** ** JS values *)

(** Truthiness of a [string | undefined]: [undefined] and the empty string
    are falsy, every other string is truthy. *)
Definition truthy (v : option string) : bool :=
  match v with
  | None => false
  | Some s => negb (String.eqb s EmptyString)
  end.

(** [v || null] on a [string | undefined]. *)
Definition orNull (v : option string) : option string :=
  if truthy v then v else None.

(** ** Data model *)

(** Modelled from the spec: the type declarations of [./index.js]
    ([ExtractedKey], [ExtractionResult], [ExtractionResults]) are not part of
    the sources; the fields are those the runner reads and writes
    ([keyName], [namespace], [defaultValue]) plus the source location. *)
Record ExtractedKey := mkKey {
  keyName : string;
  namespace : option string;
  defaultValue : option string;
  line : nat
}.

Record ExtractionResult := mkResult {
  keys : list ExtractedKey
}.

(** [key.namespace = ns] *)
Definition setNamespace (key : ExtractedKey) (ns : option string) : ExtractedKey :=
  {| keyName := keyName key; namespace := ns;
     defaultValue := defaultValue key; line := line key |}.

(** A JS [Map] keyed by strings, in insertion order. *)
Module JsMap.
Definition t (V : Type) : Type := list (string * V).

Definition empty {V} : t V := [].

(** [m.set(k, v)]: an existing key keeps its position and takes the new
    value, a new key goes last. *)
Fixpoint set {V} (m : t V) (k : string) (v : V) : t V :=
  match m with
  | [] => [(k, v)]
  | (k', v') :: m' =>
      if decide (k' = k) then (k, v) :: m' else (k', v') :: set m' k v
  end.

(** [m.values()] *)
Definition values {V} (m : t V) : list V := map snd m.
End JsMap.

Abbreviation ExtractionResults := (JsMap.t ExtractionResult).

(** Property keys of a [FilteredKeys] object: the symbol
    [Symbol('namespace.null')] or a string. *)
Inductive Namespace :=
  | NullNamespace
  | Named (name : string).

#[global] Instance Namespace_eq_dec : EqDecision Namespace.
Proof. solve_decision. Defined.

#[global] Instance Namespace_countable : Countable Namespace.
Proof.
  refine (inj_countable'
            (λ n, match n with NullNamespace => None | Named s => Some s end)
            (λ o, match o with None => NullNamespace | Some s => Named s end) _).
  by intros [].
Defined.

Abbreviation Bucket := (gmap string (option string)).
Abbreviation FilteredKeys := (gmap Namespace Bucket).

(** ** [filterExtractionResult] *)

(** [key.namespace || NullNamespace] *)
Definition effectiveNamespace (key : ExtractedKey) : Namespace :=
  match namespace key with
  | Some s => if truthy (Some s) then Named s else NullNamespace
  | None => NullNamespace
  end.

(** [key.defaultValue || null] *)
Definition storedValue (key : ExtractedKey) : option string :=
  orNull (defaultValue key).

(** Body of the inner loop: create the bucket when the property is not in
    [result], then [result[namespace].set(key.keyName, ...)]. *)
Definition filterKey (result : FilteredKeys) (key : ExtractedKey) : FilteredKeys :=
  let namespace := effectiveNamespace key in
  let result :=
    match result !! namespace with
    | Some _ => result
    | None => <[namespace := ∅]> result
    end in
  <[namespace := <[keyName key := storedValue key]> (result !!! namespace)]> result.

(** The two nested loops, with the object under construction as explicit
    state. *)
Definition filterInto (result : FilteredKeys) (data : ExtractionResults) : FilteredKeys :=
  fold_left (λ result r, fold_left filterKey (keys r) result)
            (JsMap.values data) result.

Definition filterExtractionResult (data : ExtractionResults) : FilteredKeys :=
  filterInto ∅ data.

(** Every key occurrence of [data], in the order the loops visit them. *)
Definition allKeys (data : ExtractionResults) : list ExtractedKey :=
  flat_map keys (JsMap.values data).

(** [result[ns].get(name)], [None] when the bucket or the entry is missing. *)
Definition lookupKey (result : FilteredKeys) (ns : Namespace) (name : string)
  : option (option string) :=
  result !! ns ≫= λ b, b !! name.

(** The entries of a bucket stored under [name]. *)
Definition entriesOf (b : Bucket) (name : string) : list (string * option string) :=
  filter (λ e, e.1 = name) (map_to_list b).

(** Two occurrences collide when they resolve to the same bucket and name. *)
Definition collides (ns : Namespace) (name : string) (k : ExtractedKey) : Prop :=
  effectiveNamespace k = ns ∧ keyName k = name.

#[global] Instance collides_dec ns name k : Decision (collides ns name k).
Proof. unfold collides. apply _. Defined.


(** The colliding occurrence folded last, if any. *)
Fixpoint lastWrite (ns : Namespace) (name : string) (ks : list ExtractedKey)
  : option ExtractedKey :=
  match ks with
  | [] => None
  | k :: ks' =>
      match lastWrite ns name ks' with
      | Some k' => Some k'
      | None => if decide (collides ns name k) then Some k else None
      end
  end.


(** ** [extractKeysOfFiles] *)

(** A promise that has settled. The embedding covers the runs in which
    every worker call settles: it yields the keys of its file or throws. *)
Inductive Settled (A : Type) :=
  | Fulfilled (value : A)
  | Rejected (reason : string).
Arguments Fulfilled {A} value.
Arguments Rejected {A} reason.

(** [if (!key.namespace && defaultNamespace) key.namespace = defaultNamespace] *)
Definition applyDefaultNamespace (defaultNamespace : option string)
    (key : ExtractedKey) : ExtractedKey :=
  if negb (truthy (namespace key)) && truthy defaultNamespace
  then setNamespace key defaultNamespace
  else key.

Section Runner.
(** The collaborators of the runner: the [glob] library, the worker call of
    [./worker.js], and the order in which the promises created by
    [files.map] settle. A worker call either yields the keys of the file or
    throws. *)
Variable glob : list string → Settled (list string).
Variable callWorker : option string → string → Settled ExtractionResult.
Variable settleOrder : list string → list string.

Definition extractKeysFromFile (file : string) (extractor : option string)
  : Settled ExtractionResult :=
  callWorker extractor file.

(** The callback given to [files.map], run once the worker call of [file]
    has settled: it either throws or rewrites the keys and records them. *)
Definition fileCallback (extractor defaultNamespace : option string)
    (result : ExtractionResults) (file : string) : Settled ExtractionResults :=
  match extractKeysFromFile file extractor with
  | Rejected e => Rejected e
  | Fulfilled r =>
      let r := mkResult (map (applyDefaultNamespace defaultNamespace) (keys r)) in
      Fulfilled (JsMap.set result file r)
  end.

(** [await Promise.all(...)]: the callbacks run in settle order on the
    shared [result]; the first one that throws rejects the whole join. *)
Fixpoint awaitAll (extractor defaultNamespace : option string)
    (order : list string) (result : ExtractionResults)
  : Settled ExtractionResults :=
  match order with
  | [] => Fulfilled result
  | file :: order' =>
      match fileCallback extractor defaultNamespace result file with
      | Rejected e => Rejected e
      | Fulfilled result' => awaitAll extractor defaultNamespace order' result'
      end
  end.

Definition extractKeysOfFiles (filesPatterns : list string)
    (extractor defaultNamespace : option string) : Settled ExtractionResults :=
  match glob filesPatterns with
  | Rejected e => Rejected e
  | Fulfilled files =>
      awaitAll extractor defaultNamespace (settleOrder files) JsMap.empty
  end.
End Runner.

(** The two steps of the pipeline: extract, then aggregate. *)
Definition filtered (extraction : Settled ExtractionResults) : Settled FilteredKeys :=
  match extraction with
  | Fulfilled data => Fulfilled (filterExtractionResult data)
  | Rejected e => Rejected e
  end.

(** What the callback records for a file whose extraction yields [r]. *)
Definition recorded (defaultNamespace : option string) (r : ExtractionResult)
  : ExtractionResult :=
  mkResult (map (applyDefaultNamespace defaultNamespace) (keys r)).

(** ** Scenario data of the specification *)

Definition key_hello : ExtractedKey := mkKey "hello" (Some "common") (Some "Hello") 1.
Definition key_bye : ExtractedKey := mkKey "bye" None (Some "Bye") 1.

Definition scenarioA : ExtractionResults :=
  [("a.ts", mkResult [key_hello]); ("b.ts", mkResult [key_bye])].

(** Scenarios A and B: two files, one key each. *)
Definition scenario_files : list string := ["a.ts"; "b.ts"].

Definition scenario_glob (patterns : list string) : Settled (list string) :=
  Fulfilled patterns.

Definition scenario_worker (extractor : option string) (file : string)
  : Settled ExtractionResult :=
  if decide (file = "a.ts") then Fulfilled (mkResult [key_hello])
  else if decide (file = "b.ts") then Fulfilled (mkResult [key_bye])
  else if decide (file = "c.ts") then Rejected "extractor failed"
  else Fulfilled (mkResult []).

Definition scenarioB_expected : FilteredKeys :=
  {[ Named "common" := {[ "hello" := Some "Hello" ]};
     Named "app" := {[ "bye" := Some "Bye" ]} ]}.
(** Scenario D: two files give the same key different default values. *)
Definition key_x (value : string) : ExtractedKey :=
  mkKey "x" (Some "ns") (Some value) 1.

Definition scenarioD : ExtractionResults :=
  [("a.ts", mkResult [key_x "first"]); ("b.ts", mkResult [key_x "second"])].

(** A key whose explicit namespace is the empty string. *)
Definition key_blank_ns : ExtractedKey :=
  mkKey "x" (Some EmptyString) (Some "X") 1.

Definition blank_ns_data : ExtractionResults :=
  [("a.ts", mkResult [key_blank_ns])].

(** A key whose default value is the empty string, and the same key without
    a default value. *)
Definition key_blank_value : ExtractedKey :=
  mkKey "x" (Some "ns") (Some EmptyString) 1.

Definition key_no_value : ExtractedKey :=
  mkKey "x" (Some "ns") None 1.

(** ** Statements about buckets *)

(** The key [k] of [data] lands in the bucket [ns] of the aggregated object. *)
Definition landsIn (data : ExtractionResults) (k : ExtractedKey) (ns : Namespace)
  : Prop :=
  is_Some (lookupKey (filterExtractionResult data) ns (keyName k)).

(** Keys without a namespace land in the null-namespace bucket, and keys of
    the user namespaces [EmptyString] and ["null"] land in the string-keyed
    bucket of that name, apart from the null-namespace bucket. *)
Definition nullBucketApart (data : ExtractionResults) : Prop :=
  (∀ k, k ∈ allKeys data → namespace k = None → landsIn data k NullNamespace)
  ∧ (∀ k u, k ∈ allKeys data → namespace k = Some u →
            u = EmptyString ∨ u = "null" → landsIn data k (Named u)).

(** A run with the default namespace [d] succeeds and puts every extracted
    key that lacks an explicit namespace in the bucket [d], and not in the
    null-namespace bucket. *)
Definition defaultNamespaceApplied
    (callWorker : option string → string → Settled ExtractionResult)
    (extractor : option string) (files : list string) (d : string)
    (run : Settled ExtractionResults) : Prop :=
  ∃ data, run = Fulfilled data
    ∧ ∀ f r k, f ∈ files → callWorker extractor f = Fulfilled r →
        k ∈ keys r → truthy (namespace k) = false →
        landsIn data k (Named d)
        ∧ lookupKey (filterExtractionResult data) NullNamespace (keyName k) = None.

(** Two occurrences that differ at most by an empty default value standing
    for an absent one. *)
Definition sameUpToBlank (k k' : ExtractedKey) : Prop :=
  keyName k = keyName k' ∧ namespace k = namespace k'
  ∧ (defaultValue k = defaultValue k'
     ∨ (truthy (defaultValue k) = false ∧ truthy (defaultValue k') = false)).

(** ** The worker pool *)

Module WorkerPool.

(** Modelled from the spec: the pool behind [callWorker]; [./worker.js] is
    not part of the sources. Sections 4.3 and 5 of the specification: every
    submission waits for one of [N] concurrency slots; the slot is acquired
    before the extractor starts and released when it completes, whether it
    succeeds or fails. [extractKeysOfFiles] submits every file at once, so
    the pool starts with all of them waiting. *)
Record Pool := mkPool {
  slots : nat;
  waiting : list string;
  inFlight : list string;
  completed : list string
}.

Inductive Event :=
  | Start
  | Finish (file : string).

Definition submitAll (N : nat) (files : list string) : Pool :=
  mkPool N files [] [].

Fixpoint release (file : string) (running : list string) : list string :=
  match running with
  | [] => []
  | f :: running' =>
      if decide (f = file) then running' else f :: release file running'
  end.

Definition step (p : Pool) (ev : Event) : option Pool :=
  match ev with
  | Start =>
      match waiting p with
      | file :: rest =>
          if decide (length (inFlight p) < slots p)
          then Some (mkPool (slots p) rest (file :: inFlight p) (completed p))
          else None
      | [] => None
      end
  | Finish file =>
      if decide (file ∈ inFlight p)
      then Some (mkPool (slots p) (waiting p) (release file (inFlight p))
                        (file :: completed p))
      else None
  end.

Fixpoint run (p : Pool) (evs : list Event) : option Pool :=
  match evs with
  | [] => Some p
  | ev :: evs' =>
      match step p ev with
      | Some p' => run p' evs'
      | None => None
      end
  end.

(** One file at a time: start it, let it finish. *)
Definition sequential (files : list string) : list Event :=
  flat_map (λ f, [Start; Finish f]) files.

End WorkerPool.

(** ** Console logger: [utils/logger] *)

Module Logger.

(** An [Error] object as the code reads it: [message], [stack], the [code]
    that Node sets on system errors and, for an [HttpError], the status of
    its [response]. *)
Record JsError := mkError {
  message : string;
  stack : option string;
  code : option string;
  httpStatus : option Z
}.

(** What the process does to the outside, in order. [Prompt] is a call of
    [askBoolean], [Remove] a call of [rm(path, { recursive: true })]. *)
Inductive Effect :=
  | ConsoleLog (text : string)
  | ConsoleDump (e : JsError)
  | StdoutWrite (chunk : string)
  | Prompt (question : string)
  | Remove (path : string).

Definition isPrompt (e : Effect) : bool :=
  match e with
  | Prompt _ => true
  | _ => false
  end.

(** The module variable [debugEnabled] and the effects so far. The flag is
    a [boolean | undefined]: [setDebug] is called with an option value that
    is [undefined] when the option is not given. *)
Record Process := mkProcess {
  debugEnabled : option bool;
  effects : list Effect
}.

(** How a call ends: it returns, the process exits, or it throws. *)
Inductive Outcome (A : Type) :=
  | Returned (a : A)
  | Exited (status : Z)
  | Threw (e : JsError).
Arguments Returned {A} a.
Arguments Exited {A} status.
Arguments Threw {A} e.

(** [let debugEnabled = false] *)
Definition initial : Process := mkProcess (Some false) [].

(** Truthiness of a [boolean | undefined]. *)
Definition flag (v : option bool) : bool := default false v.

Definition emit (e : Effect) (p : Process) : Process :=
  mkProcess (debugEnabled p) (effects p ++ [e]).

Definition setDebug (enabled : option bool) (p : Process) : Process :=
  mkProcess enabled (effects p).

Definition isDebugEnabled (p : Process) : option bool := debugEnabled p.

Definition debug (msg : string) (p : Process) : Process :=
  if flag (debugEnabled p) then emit (ConsoleLog ("⚪ " +:+ msg)) p else p.

Definition info (msg : string) (p : Process) : Process :=
  emit (ConsoleLog ("🔵 " +:+ msg)) p.

Definition success (msg : string) (p : Process) : Process :=
  emit (ConsoleLog ("✅ " +:+ msg)) p.

Definition warn (msg : string) (p : Process) : Process :=
  emit (ConsoleLog ("🟡 " +:+ msg)) p.

Definition error (msg : string) (p : Process) : Process :=
  emit (ConsoleLog ("🔴 " +:+ msg)) p.

(** [exitWithError(err)]: [err] is a string or an [Error]; the result is the
    exit status. [getStackTrace] stands for the call of [./getStackTrace.js],
    which is not part of the sources. *)
Definition exitWithError (getStackTrace : option string) (err : string + JsError)
    (p : Process) : Z * Process :=
  let '(message, stack) :=
    match err with
    | inr e => (message e, stack e)
    | inl s => (s, getStackTrace)
    end in
  let p := error message p in
  let p :=
    match stack with
    | Some s => if flag (debugEnabled p) && truthy (Some s)
                then emit (ConsoleLog s) p else p
    | None => p
    end in
  (1%Z, p).

Definition CR : string := String (Ascii.ascii_of_nat 13) EmptyString.
Definition LF : string := String (Ascii.ascii_of_nat 10) EmptyString.

Definition SYMBOLS : list string :=
  ["      🐁"; "    🐁  "; "  🐁    "; "🐁      "].

(** State of one call of [loading]: whether the promise is still pending,
    whether the interval timer is armed, the local [symbolPosition] and the
    chunks written to standard output. *)
Record Loading := mkLoading {
  tty : bool;
  pending : bool;
  interval : bool;
  symbolPosition : nat;
  written : list string
}.

(** What happens after the call: the timer fires or the promise settles. *)
Inductive LoadingEvent :=
  | Tick
  | Settle (ok : bool).

(** The synchronous part of [loading(comment, promise)]. *)
Definition loading (isTTY : bool) (comment : string) : Loading :=
  if negb isTTY then mkLoading false true false 0 [comment]
  else mkLoading true true true 0 [].

(** The chunk of the timer callback; an index outside [SYMBOLS] would print
    [undefined]. *)
Definition frame (comment : string) (position : nat) : string :=
  CR +:+ default "undefined" (SYMBOLS !! position) +:+ " " +:+ comment.

(** The chunk of the [then] callbacks. *)
Definition statusLine (isTTY : bool) (comment : string) (ok : bool) : string :=
  if isTTY
  then CR +:+ (if ok then "🐭✅     " else "🐭🔴     ") +:+ comment +:+ LF
  else (if ok then "   ✓ Success" else "   ✗ Failure") +:+ LF.

Definition loadingStep (comment : string) (s : Loading) (ev : LoadingEvent)
  : Loading :=
  match ev with
  | Tick =>
      if interval s
      then mkLoading (tty s) (pending s) true ((symbolPosition s + 1) mod 4)
                     (written s ++ [frame comment (symbolPosition s)])
      else s
  | Settle ok =>
      if pending s
      then mkLoading (tty s) false false (symbolPosition s)
                     (written s ++ [statusLine (tty s) comment ok])
      else s
  end.

Definition loadingRun (comment : string) (s : Loading) (evs : list LoadingEvent)
  : Loading :=
  fold_left (loadingStep comment) evs s.

End Logger.

(** ** Entry point: [index] *)

Module Index.
Import Logger.

(** The options the pre-action hook reads: [apiKey] is [None] when the
    command has no such option and a string when it has one, [project] is
    the value of [opts.project]. *)
Record Opts := mkOpts {
  apiKey : option string;
  project : option Z
}.

Definition preHandler (verbose : option bool) (opts : Opts) (p : Process)
  : Outcome unit * Process :=
  match apiKey opts with
  | Some key =>
      if bool_decide (project opts = Some (-1)%Z)
      then if negb (String.prefix "tgpak_" key)
           then (Exited 1, error "Project ID is required when not using a Project API Key." p)
           else (Returned (), setDebug verbose p)
      else (Returned (), setDebug verbose p)
  | None => (Returned (), setDebug verbose p)
  end.

(** [run()]: [parsed] is how [program.parseAsync()] ended. *)
Definition run (parsed : Outcome unit) (p : Process) : Outcome unit * Process :=
  match parsed with
  | Threw e =>
      let uncaught :=
        (Exited 1, emit (ConsoleDump e) (error ("Uncaught Error: " +:+ message e) p)) in
      match httpStatus e with
      | Some status =>
          if bool_decide (status = 503%Z)
          then (Exited 1, error "The Tolgee server is temporarily unavailable. Please try again later." p)
          else if bool_decide (500 ≤ status)%Z
          then (Exited 1, error "The Tolgee server reported an unexpected server error. Please try again later." p)
          else uncaught
      | None => uncaught
      end
  | Returned a => (Returned a, p)
  | Exited status => (Exited status, p)
  end.

End Index.

(** ** Pull command: [commands/pull] *)

Module Pull.
Import Logger.

(** A call of the file system or of the prompt: it yields a value or
    throws. *)
Inductive Call (A : Type) :=
  | Yields (a : A)
  | Fails (e : JsError).
Arguments Yields {A} a.
Arguments Fails {A} e.

Record Stats := mkStats { isDirectory : bool }.

Definition overwriteQuestion : string :=
  "Do you want to overwrite data? *BE CAREFUL, ALL THE CONTENTS OF THE DESTINATION FOLDER WILL BE DESTROYED*.".

Section ValidatePath.
(** The environment of [validatePath]: [stat] and [rm] of [fs/promises],
    [process.stdout.isTTY], [askBoolean] of [../utils/ask] and [resolve] of
    [path]. *)
Variable stat : string → Call Stats.
Variable isTTY : bool.
Variable askBoolean : string → Call bool.
Variable rm : string → Call unit.
Variable resolve : string → string.

(** The [try] block. *)
Definition validatePathBody (path : string) (overwrite : option bool)
    (p : Process) : Outcome unit * Process :=
  match stat path with
  | Fails e => (Threw e, p)
  | Yields stats =>
      if negb (isDirectory stats)
      then (Exited 1, error "The specified path already exists and is not a directory." p)
      else if negb (flag overwrite)
      then
        if negb isTTY
        then (Exited 1, error "The specified path already exists." p)
        else
          let p := warn ("The specified path " +:+ resolve path +:+ " already exists.") p in
          let p := emit (Prompt overwriteQuestion) p in
          match askBoolean overwriteQuestion with
          | Fails e => (Threw e, p)
          | Yields userOverwrite =>
              if negb userOverwrite
              then (Exited 1, error "Aborting." p)
              else
                let p := emit (Remove path) p in
                match rm path with
                | Fails e => (Threw e, p)
                | Yields _ => (Returned (), p)
                end
          end
      else (Returned (), p)
  end.

(** The [catch] clause: an error whose code is [ENOENT] is dropped, any
    other is thrown again. *)
Definition validatePath (path : string) (overwrite : option bool)
    (p : Process) : Outcome unit * Process :=
  match validatePathBody path overwrite p with
  | (Threw e, p') =>
      if bool_decide (code e ≠ Some "ENOENT") then (Threw e, p')
      else (Returned (), p')
  | other => other
  end.
End ValidatePath.

End Pull.

(** ** Statements about stored values *)

(** The bucket that a [namespace] field stands for: a non-empty string names
    its own bucket, an absent or empty one the null-namespace bucket. *)
Definition resolvesTo (ns : option string) (bucket : Namespace) : Prop :=
  (∃ u, ns = Some u ∧ u ≠ EmptyString ∧ bucket = Named u)
  ∨ ((ns = None ∨ ns = Some EmptyString) ∧ bucket = NullNamespace).

(** The value that a [defaultValue] field leaves in a bucket: a non-empty
    string itself, [null] for an absent or empty one. *)
Definition writtenFor (dv : option string) (v : option string) : Prop :=
  (∃ s, dv = Some s ∧ s ≠ EmptyString ∧ v = Some s)
  ∨ ((dv = None ∨ dv = Some EmptyString) ∧ v = None).

(** The value held for [name] in the bucket of the user namespace [u] is
    the default value of one of the colliding occurrences, an absent default
    value being held as [null]. *)
Definition storesCandidate (data : ExtractionResults) (u name : string) : Prop :=
  ∀ v, lookupKey (filterExtractionResult data) (Named u) name = Some v →
       ∃ k, k ∈ allKeys data ∧ namespace k = Some u ∧ keyName k = name
            ∧ defaultValue k = v.

(** The object holds the default value of [k] for the name of [k] under
    the namespace of [k]. *)
Definition holdsTriple (data : ExtractionResults) (k : ExtractedKey) : Prop :=
  ∀ u, namespace k = Some u →
       lookupKey (filterExtractionResult data) (Named u) (keyName k)
       = Some (defaultValue k).

(** Two files give the key [x] of namespace [ns] the values ["first"] and
    then the empty string. *)
Definition blank_last_data : ExtractionResults :=
  [("a.ts", mkResult [key_x "first"]); ("b.ts", mkResult [key_blank_value])].

(** Two files give the key [x] of namespace [ns] the empty string. *)
Definition blank_shared_data : ExtractionResults :=
  [("a.ts", mkResult [key_blank_value]); ("b.ts", mkResult [key_blank_value])].

(** ** [filterExtractionResult] on the heap *)

Module Heap.

(** The part of the JS heap that [filterExtractionResult] works on: the
    objects without prototype, whose properties refer to [Map] objects, the
    [Map] objects, and the next free reference. *)
Record Store := mkStore {
  objects : gmap nat (gmap Namespace nat);
  maps : gmap nat Bucket;
  next : nat
}.

(** [Object.create(null)] *)
Definition objectCreate (s : Store) : nat * Store :=
  (next s, mkStore (<[next s := ∅]> (objects s)) (maps s) (S (next s))).

(** [new Map()] *)
Definition newMap (s : Store) : nat * Store :=
  (next s, mkStore (objects s) (<[next s := ∅]> (maps s)) (S (next s))).

(** [o[ns]] *)
Definition getProperty (o : nat) (ns : Namespace) (s : Store) : option nat :=
  objects s !! o ≫= λ props, props !! ns.

(** [ns in o] *)
Definition hasProperty (o : nat) (ns : Namespace) (s : Store) : bool :=
  bool_decide (is_Some (getProperty o ns s)).

(** [o[ns] = ref] *)
Definition setProperty (o : nat) (ns : Namespace) (ref : nat) (s : Store) : Store :=
  mkStore (alter (insert ns ref) o (objects s)) (maps s) (next s).

(** [m.set(name, v)] *)
Definition mapSet (m : nat) (name : string) (v : option string) (s : Store)
  : Store :=
  mkStore (objects s) (alter (insert name v) m (maps s)) (next s).

(** Body of the inner loop on the object [result]. A missing property in
    the last step cannot happen: the step before has just set it. *)
Definition filterKeyAt (result : nat) (s : Store) (key : ExtractedKey) : Store :=
  let namespace := effectiveNamespace key in
  let s :=
    if hasProperty result namespace s then s
    else let '(m, s) := newMap s in setProperty result namespace m s in
  match getProperty result namespace s with
  | Some m => mapSet m (keyName key) (storedValue key) s
  | None => s
  end.

(** The whole function: it returns the reference of the object it built. *)
Definition filterExtractionResultIn (data : ExtractionResults) (s : Store)
  : nat * Store :=
  let '(result, s) := objectCreate s in
  (result,
   fold_left (λ s r, fold_left (filterKeyAt result) (keys r) s)
             (JsMap.values data) s).

(** What an object looks like from outside: each property with the content
    of the [Map] it refers to. *)
Definition structure (o : nat) (s : Store) : FilteredKeys :=
  omap (λ m, maps s !! m) (default ∅ (objects s !! o)).

(** Every reference in use is below the next free one. *)
Definition wellFormed (s : Store) : Prop :=
  (∀ l, is_Some (objects s !! l) → l < next s)
  ∧ (∀ l, is_Some (maps s !! l) → l < next s).

(** The object [o], allocated at or after [base], holds [fk]: its
    properties refer to distinct live [Map] objects, all allocated at or
    after [base], whose contents are the buckets of [fk]. *)
Definition represents (base o : nat) (s : Store) (fk : FilteredKeys) : Prop :=
  ∃ props,
    objects s !! o = Some props
    ∧ base ≤ o
    ∧ (∀ ns m, props !! ns = Some m → base ≤ m ∧ is_Some (maps s !! m))
    ∧ (∀ ns1 ns2 m, props !! ns1 = Some m → props !! ns2 = Some m → ns1 = ns2)
    ∧ (∀ ns, fk !! ns = props !! ns ≫= λ m, maps s !! m).

Definition emptyStore : Store := mkStore ∅ ∅ 0.

End Heap.

(** * Properties *)

Example scenarioA_filtered :
  filterExtractionResult scenarioA
  = {[ Named "common" := {[ "hello" := Some "Hello" ]};
       NullNamespace := {[ "bye" := Some "Bye" ]} ]}.
Proof. by vm_compute. Qed.


Example scenarioB_in_order :
  filtered (extractKeysOfFiles scenario_glob scenario_worker id
              scenario_files None (Some "app"))
  = Fulfilled scenarioB_expected.
Proof. by vm_compute. Qed.

Example scenarioB_reversed :
  filtered (extractKeysOfFiles scenario_glob scenario_worker reverse
              scenario_files None (Some "app"))
  = Fulfilled scenarioB_expected.
Proof. by vm_compute. Qed.

Example scenarioC_rejects :
  extractKeysOfFiles scenario_glob scenario_worker id
    ["a.ts"; "c.ts"; "b.ts"] None None
  = Rejected "extractor failed".
Proof. by vm_compute. Qed.

(** ** Facts about JS truthiness *)

Lemma truthy_Some s : truthy (Some s) = true ↔ s ≠ EmptyString.
Proof.
  simpl. rewrite negb_true_iff. split.
  - intros H ->. by rewrite String.eqb_refl in H.
  - intros H. by apply String.eqb_neq.
Qed.

Lemma truthy_false v : truthy v = false ↔ v = None ∨ v = Some EmptyString.
Proof.
  destruct v as [s|]; simpl.
  - rewrite negb_false_iff, String.eqb_eq. split.
    + intros ->. by right.
    + by intros [?|[= ->]].
  - split; [by left | done].
Qed.

Lemma effectiveNamespace_named k s :
  namespace k = Some s → s ≠ EmptyString → effectiveNamespace k = Named s.
Proof.
  intros Hk Hs. unfold effectiveNamespace. rewrite Hk.
  apply truthy_Some in Hs. by rewrite Hs.
Qed.

Lemma effectiveNamespace_falsy k :
  truthy (namespace k) = false → effectiveNamespace k = NullNamespace.
Proof.
  unfold effectiveNamespace. destruct (namespace k) as [s|]; [|done].
  by intros ->.
Qed.

Lemma effectiveNamespace_null k :
  effectiveNamespace k = NullNamespace ↔ truthy (namespace k) = false.
Proof.
  split; [|apply effectiveNamespace_falsy].
  unfold effectiveNamespace. destruct (namespace k) as [s|]; [|done].
  by destruct (truthy (Some s)).
Qed.

Lemma storedValue_falsy k :
  truthy (defaultValue k) = false → storedValue k = None.
Proof. unfold storedValue, orNull. by intros ->. Qed.

(** A non-empty default value is stored as it is. *)
Lemma storedValue_truthy k :
  truthy (defaultValue k) = true → storedValue k = defaultValue k.
Proof. unfold storedValue, orNull. by intros ->. Qed.

(** ** One step of the aggregation *)

Lemma filterKey_bucket result k :
  filterKey result k !! effectiveNamespace k
  = Some (<[keyName k := storedValue k]> (default ∅ (result !! effectiveNamespace k))).
Proof.
  unfold filterKey. destruct (result !! effectiveNamespace k) as [b|] eqn:Hb.
  - rewrite lookup_insert_eq. f_equal.
    by rewrite (lookup_total_correct _ _ _ Hb).
  - rewrite lookup_insert_eq. f_equal.
    by rewrite lookup_total_insert_eq.
Qed.

Lemma filterKey_other result k ns :
  ns ≠ effectiveNamespace k → filterKey result k !! ns = result !! ns.
Proof.
  intros Hne. unfold filterKey.
  rewrite lookup_insert_ne by done.
  destruct (result !! effectiveNamespace k); [done|].
  by rewrite lookup_insert_ne.
Qed.

Lemma lookupKey_filterKey result k ns name :
  lookupKey (filterKey result k) ns name
  = if decide (collides ns name k) then Some (storedValue k)
    else lookupKey result ns name.
Proof.
  unfold lookupKey. destruct (decide (ns = effectiveNamespace k)) as [->|Hns].
  - rewrite filterKey_bucket. simpl.
    destruct (decide (name = keyName k)) as [->|Hname].
    + rewrite lookup_insert_eq. by rewrite decide_True.
    + rewrite lookup_insert_ne by done.
      rewrite decide_False by (intros [_ ?]; congruence).
      by destruct (result !! effectiveNamespace k).
  - rewrite filterKey_other by done.
    by rewrite decide_False by (intros [? _]; congruence).
Qed.

Lemma filterKey_is_Some result k ns :
  is_Some (filterKey result k !! ns)
  ↔ is_Some (result !! ns) ∨ effectiveNamespace k = ns.
Proof.
  destruct (decide (ns = effectiveNamespace k)) as [->|Hns].
  - rewrite filterKey_bucket. split; [by right | by eauto].
  - rewrite filterKey_other by done. split; [by left|].
    by intros [?|?].
Qed.

(** ** The whole fold *)

Lemma filterInto_allKeys result data :
  filterInto result data = fold_left filterKey (allKeys data) result.
Proof.
  unfold filterInto, allKeys. generalize (JsMap.values data) as rs.
  intros rs. revert result.
  induction rs as [|r rs IH]; intros result; simpl; [done|].
  by rewrite fold_left_app, IH.
Qed.

Lemma lookupKey_fold ks result ns name :
  lookupKey (fold_left filterKey ks result) ns name
  = match lastWrite ns name ks with
    | Some k => Some (storedValue k)
    | None => lookupKey result ns name
    end.
Proof.
  revert result. induction ks as [|k ks IH]; intros result; simpl; [done|].
  rewrite IH. destruct (lastWrite ns name ks); [done|].
  rewrite lookupKey_filterKey. by case_decide.
Qed.

Lemma fold_is_Some ks result ns :
  is_Some (fold_left filterKey ks result !! ns)
  ↔ is_Some (result !! ns) ∨ ∃ k, k ∈ ks ∧ effectiveNamespace k = ns.
Proof.
  revert result. induction ks as [|k ks IH]; intros result; simpl.
  - split; [by left|]. intros [?|(k & Hk & _)]; [done|]. by inversion Hk.
  - rewrite IH, filterKey_is_Some. split.
    + intros [[?|?]|(k' & Hk' & ?)]; [by left| |].
      * right. exists k. split; [by left|done].
      * right. exists k'. split; [by right|done].
    + intros [?|(k' & Hk' & ?)]; [by left; left|].
      apply elem_of_cons in Hk' as [->|Hk']; [by left; right|].
      right. by exists k'.
Qed.

(** ** The last colliding occurrence *)

Lemma lastWrite_None ns name ks :
  lastWrite ns name ks = None ↔ Forall (λ k, ¬ collides ns name k) ks.
Proof.
  induction ks as [|k ks IH]; simpl.
  - split; [by constructor | done].
  - rewrite Forall_cons. destruct (lastWrite ns name ks) eqn:Hl.
    + split; [done|]. intros [_ H]. apply IH in H. done.
    + case_decide; split; try done.
      * by intros [? _].
      * intros _. split; [done|]. by apply IH.
Qed.

Lemma lastWrite_split ns name ks k :
  lastWrite ns name ks = Some k →
  ∃ pre post, ks = pre ++ k :: post ∧ collides ns name k
              ∧ Forall (λ k', ¬ collides ns name k') post.
Proof.
  induction ks as [|k0 ks IH]; simpl; [done|].
  destruct (lastWrite ns name ks) as [k'|] eqn:Hl.
  - intros [= ->]. destruct IH as (pre & post & -> & Hc & Hpost); [done|].
    by exists (k0 :: pre), post.
  - case_decide as Hc; [|done]. intros [= ->].
    exists [], ks. split_and!; [done|done|]. by apply lastWrite_None.
Qed.

Lemma lastWrite_last ns name pre k post :
  collides ns name k →
  Forall (λ k', ¬ collides ns name k') post →
  lastWrite ns name (pre ++ k :: post) = Some k.
Proof.
  intros Hc Hpost. apply lastWrite_None in Hpost.
  induction pre as [|k0 pre IH]; simpl.
  - rewrite Hpost. by rewrite decide_True.
  - by rewrite IH.
Qed.

Lemma lastWrite_is_Some ns name ks k :
  k ∈ ks → collides ns name k → is_Some (lastWrite ns name ks).
Proof.
  intros Hk Hc. destruct (lastWrite ns name ks) eqn:Hl; [by eauto|].
  apply lastWrite_None in Hl. rewrite Forall_forall in Hl.
  by destruct (Hl k Hk).
Qed.

Lemma lastWrite_value ns name ks v :
  (∃ k, k ∈ ks ∧ collides ns name k) →
  (∀ k, k ∈ ks → collides ns name k → storedValue k = v) →
  storedValue <$> lastWrite ns name ks = Some v.
Proof.
  intros (k & Hk & Hc) Hall.
  destruct (lastWrite_is_Some _ _ _ _ Hk Hc) as [k' Hk'].
  rewrite Hk'. simpl. f_equal.
  destruct (lastWrite_split _ _ _ _ Hk') as (pre & post & -> & Hc' & _).
  apply Hall; [|done]. apply elem_of_app. right. by left.
Qed.

(** ** What the finished object holds *)

Lemma lookupKey_empty ns name : lookupKey ∅ ns name = None.
Proof. unfold lookupKey. by rewrite lookup_empty. Qed.

Lemma lookupKey_filtered data ns name :
  lookupKey (filterExtractionResult data) ns name
  = storedValue <$> lastWrite ns name (allKeys data).
Proof.
  unfold filterExtractionResult. rewrite filterInto_allKeys, lookupKey_fold.
  destruct (lastWrite ns name (allKeys data)); [done|].
  apply lookupKey_empty.
Qed.

Lemma lookupKey_is_Some data ns name :
  is_Some (lookupKey (filterExtractionResult data) ns name)
  ↔ ∃ k, k ∈ allKeys data ∧ collides ns name k.
Proof.
  rewrite lookupKey_filtered, fmap_is_Some. split.
  - intros [k Hk]. apply lastWrite_split in Hk as (pre & post & Heq & Hc & _).
    exists k. split; [|done]. rewrite Heq. apply elem_of_app. right. by left.
  - intros (k & Hk & Hc). by eapply lastWrite_is_Some.
Qed.

Lemma bucket_is_Some data ns :
  is_Some (filterExtractionResult data !! ns)
  ↔ ∃ k, k ∈ allKeys data ∧ effectiveNamespace k = ns.
Proof.
  unfold filterExtractionResult. rewrite filterInto_allKeys, fold_is_Some.
  rewrite lookup_empty. split; [|by right].
  intros [[? [=]]|?]; done.
Qed.

Lemma lookupKey_bucket (result : FilteredKeys) ns b name :
  result !! ns = Some b → lookupKey result ns name = b !! name.
Proof. unfold lookupKey. by intros ->. Qed.

(** Two objects with the same buckets and the same entries are equal. *)
Lemma filtered_ext (r1 r2 : FilteredKeys) :
  (∀ ns, is_Some (r1 !! ns) ↔ is_Some (r2 !! ns)) →
  (∀ ns name, lookupKey r1 ns name = lookupKey r2 ns name) →
  r1 = r2.
Proof.
  intros Hb Hl. apply map_eq. intros ns.
  destruct (r1 !! ns) as [b1|] eqn:H1, (r2 !! ns) as [b2|] eqn:H2.
  - f_equal. apply map_eq. intros name.
    rewrite <- (lookupKey_bucket r1 ns b1 name H1).
    rewrite <- (lookupKey_bucket r2 ns b2 name H2). apply Hl.
  - assert (is_Some (r2 !! ns)) as [? ?] by (apply Hb; rewrite H1; eauto).
    congruence.
  - assert (is_Some (r1 !! ns)) as [? ?] by (apply Hb; rewrite H2; eauto).
    congruence.
  - done.
Qed.

(** A bucket holds exactly one entry under a name it maps. *)
Lemma entriesOf_lookup (b : Bucket) name v :
  b !! name = Some v → entriesOf b name = [(name, v)].
Proof.
  intros Hb. unfold entriesOf. apply Permutation_singleton_r.
  rewrite <- (insert_delete_id b name v Hb) at 1.
  rewrite map_to_list_insert by apply lookup_delete_eq.
  rewrite filter_cons_True by done. apply Permutation_skip.
  match goal with |- ?l ≡ₚ [] => assert (l = []) as ->; [|done] end.
  destruct (filter _ _) as [|[n w] l] eqn:Hf; [done|].
  assert ((n, w) ∈ (n, w) :: l) as Hin by left.
  rewrite <- Hf in Hin. apply list_elem_of_filter in Hin as [Hn Hin].
  simpl in Hn. subst n.
  apply elem_of_map_to_list in Hin. by rewrite lookup_delete_eq in Hin.
Qed.
(** ** Facts about JS maps *)

Lemma JsMap_set_same {V} (m : JsMap.t V) k v : (k, v) ∈ JsMap.set m k v.
Proof.
  induction m as [|[k' v'] m IH]; simpl; [by left|].
  case_decide; [by left | by right].
Qed.

Lemma JsMap_set_other {V} (m : JsMap.t V) k v k' v' :
  k' ≠ k → (k', v') ∈ m → (k', v') ∈ JsMap.set m k v.
Proof.
  intros Hne. induction m as [|[k0 v0] m IH]; simpl; [by inversion 1|].
  intros [[= <- <-]|Hin]%elem_of_cons.
  - rewrite decide_False by done. by left.
  - case_decide; right; [done | by apply IH].
Qed.

Lemma JsMap_set_inv {V} (m : JsMap.t V) k v k' v' :
  (k', v') ∈ JsMap.set m k v → (k', v') = (k, v) ∨ (k', v') ∈ m.
Proof.
  induction m as [|[k0 v0] m IH]; simpl.
  - intros ->%list_elem_of_singleton. by left.
  - case_decide.
    + intros [->|Hin]%elem_of_cons; [by left | by right; right].
    + intros [->|Hin]%elem_of_cons; [by right; left|].
      destruct (IH Hin) as [?|?]; [by left | by right; right].
Qed.

Lemma allKeys_elem_of (data : ExtractionResults) f r k :
  (f, r) ∈ data → k ∈ keys r → k ∈ allKeys data.
Proof.
  intros Hf Hk. unfold allKeys, JsMap.values.
  apply list_elem_of_In, in_flat_map. exists r. split.
  - apply in_map_iff. exists (f, r). split; [done|]. by apply list_elem_of_In.
  - by apply list_elem_of_In.
Qed.

Lemma allKeys_elem_of_inv (data : ExtractionResults) k :
  k ∈ allKeys data → ∃ f r, (f, r) ∈ data ∧ k ∈ keys r.
Proof.
  unfold allKeys, JsMap.values.
  intros (r & Hr & Hk)%list_elem_of_In%in_flat_map.
  apply in_map_iff in Hr as ([f r'] & <- & Hin).
  exists f, r'. split; by apply list_elem_of_In.
Qed.

(** ** Facts about the default-namespace rewrite *)

Lemma applyDefaultNamespace_keyName d k :
  keyName (applyDefaultNamespace d k) = keyName k.
Proof. unfold applyDefaultNamespace. by destruct (_ && _). Qed.

Lemma applyDefaultNamespace_defaultValue d k :
  defaultValue (applyDefaultNamespace d k) = defaultValue k.
Proof. unfold applyDefaultNamespace. by destruct (_ && _). Qed.

Lemma applyDefaultNamespace_None k : applyDefaultNamespace None k = k.
Proof. unfold applyDefaultNamespace. simpl. by rewrite andb_false_r. Qed.

Lemma applyDefaultNamespace_truthy d k :
  truthy (namespace k) = true → applyDefaultNamespace d k = k.
Proof. unfold applyDefaultNamespace. by intros ->. Qed.

Lemma applyDefaultNamespace_falsy d k :
  d ≠ EmptyString → truthy (namespace k) = false →
  effectiveNamespace (applyDefaultNamespace (Some d) k) = Named d.
Proof.
  intros Hd Hk. unfold applyDefaultNamespace. rewrite Hk.
  apply truthy_Some in Hd. rewrite Hd. simpl.
  apply effectiveNamespace_named with (s := d); [done|].
  by apply truthy_Some.
Qed.

Lemma applyDefaultNamespace_not_null d k :
  d ≠ EmptyString →
  effectiveNamespace (applyDefaultNamespace (Some d) k) ≠ NullNamespace.
Proof.
  intros Hd. destruct (truthy (namespace k)) eqn:Hk.
  - rewrite applyDefaultNamespace_truthy by done.
    rewrite effectiveNamespace_null. congruence.
  - by rewrite applyDefaultNamespace_falsy.
Qed.

(** ** Facts about the join over all files *)

Section RunnerFacts.
Variable callWorker : option string → string → Settled ExtractionResult.
Variables extractor defaultNamespace : option string.

Lemma awaitAll_rejects order result f e :
  f ∈ order → callWorker extractor f = Rejected e →
  ∃ e', awaitAll callWorker extractor defaultNamespace order result = Rejected e'.
Proof.
  intros Hf He. revert result.
  induction order as [|f0 order IH]; intros result; [by inversion Hf|].
  simpl. unfold fileCallback, extractKeysFromFile.
  destruct (callWorker extractor f0) as [r0|e0] eqn:H0; [|by eauto].
  apply elem_of_cons in Hf as [->|Hf]; [congruence|].
  by apply IH.
Qed.

Lemma awaitAll_fulfils order result :
  (∀ f, f ∈ order → ∃ r, callWorker extractor f = Fulfilled r) →
  ∃ data,
    awaitAll callWorker extractor defaultNamespace order result = Fulfilled data
    ∧ (∀ f r, callWorker extractor f = Fulfilled r →
              f ∈ order ∨ (f, recorded defaultNamespace r) ∈ result →
              (f, recorded defaultNamespace r) ∈ data)
    ∧ (∀ f v, (f, v) ∈ data →
              (f, v) ∈ result
              ∨ ∃ r, f ∈ order ∧ callWorker extractor f = Fulfilled r
                     ∧ v = recorded defaultNamespace r).
Proof.
  revert result. induction order as [|f0 order IH]; intros result Hall.
  - exists result. split_and!; [done| |by left].
    intros f r _ [Hf|?]; [by inversion Hf | done].
  - destruct (Hall f0) as [r0 H0]; [by left|].
    destruct (IH (JsMap.set result f0 (recorded defaultNamespace r0)))
      as (data & Hrun & Hin & Hout).
    { intros f Hf. apply Hall. by right. }
    exists data. split_and!.
    + simpl. unfold fileCallback, extractKeysFromFile. by rewrite H0.
    + intros f r Hr Hf. apply Hin; [done|].
      destruct (decide (f = f0)) as [->|Hne].
      * right. assert (r = r0) as -> by congruence. apply JsMap_set_same.
      * destruct Hf as [[->|Hf]%elem_of_cons|Hf]; [done|by left|].
        right. by apply JsMap_set_other.
    + intros f v Hf. destruct (Hout f v Hf) as [Hres|(r & Hr & Hw & ->)].
      * apply JsMap_set_inv in Hres as [[= -> ->]|Hres]; [|by left].
        right. exists r0. split_and!; [by left|done|done].
      * right. exists r. split_and!; [by right|done|done].
Qed.
(** Setting a key that the map lacks appends it. *)
Lemma JsMap_set_fresh {V} (m : JsMap.t V) k v :
  k ∉ m.*1 → JsMap.set m k v = m ++ [(k, v)].
Proof.
  induction m as [|[k' v'] m IH]; simpl; [done|].
  intros Hk. apply not_elem_of_cons in Hk as [Hne Hk].
  rewrite decide_False by done. by rewrite IH.
Qed.

(** With distinct files, the map lists the files in the order in which
    they settled: this is the order [filterExtractionResult] folds them in. *)
Lemma awaitAll_settle_order order result data :
  NoDup (result.*1 ++ order) →
  awaitAll callWorker extractor defaultNamespace order result = Fulfilled data →
  data.*1 = result.*1 ++ order.
Proof.
  revert result. induction order as [|f order IH]; intros result Hnd; simpl.
  - intros [= <-]. by rewrite app_nil_r.
  - unfold fileCallback, extractKeysFromFile.
    destruct (callWorker extractor f) as [r|e]; [|done].
    apply NoDup_app in Hnd as (Hres & Hdisj & Hord).
    apply NoDup_cons in Hord as [Hf Hord].
    assert (f ∉ result.*1) as Hfresh.
    { intros Hin. apply (Hdisj f Hin). by left. }
    rewrite JsMap_set_fresh by done. intros Hrun.
    apply IH in Hrun.
    + rewrite Hrun, fmap_app. simpl. by rewrite <- app_assoc.
    + rewrite fmap_app. simpl. rewrite <- app_assoc. simpl.
      apply NoDup_app. split_and!; [done| |by apply NoDup_cons].
      intros x Hx Hx'. apply elem_of_cons in Hx' as [->|Hx']; [done|].
      apply (Hdisj x Hx). by right.
Qed.
End RunnerFacts.

(** ** The null-namespace bucket *)

Lemma effectiveNamespace_Named k u :
  effectiveNamespace k = Named u ↔ namespace k = Some u ∧ u ≠ EmptyString.
Proof.
  unfold effectiveNamespace. destruct (namespace k) as [s|]; [|by split; [|intros []]].
  destruct (truthy (Some s)) eqn:Hs.
  - apply truthy_Some in Hs. split.
    + by intros [= ->].
    + by intros [[= ->] _].
  - apply truthy_false in Hs as [Hs|[= ->]]; [done|]. split; [done|].
    by intros [[= <-] ?].
Qed.

(** C1, as stated, fails: a key whose explicit namespace is the empty string
    is put in the null-namespace bucket, and the aggregated object has no
    bucket named by the empty string. *)
Lemma blank_namespace_not_apart : ¬ nullBucketApart blank_ns_data.
Proof.
  intros [_ H].
  destruct (H key_blank_ns EmptyString) as [v Hv]; [by left|done|by left|].
  by vm_compute in Hv.
Qed.

Example blank_namespace_like_absent :
  filterExtractionResult blank_ns_data
  = filterExtractionResult [("a.ts", mkResult [setNamespace key_blank_ns None])].
Proof. by vm_compute. Qed.

(** C1 (amended): the null-namespace bucket holds exactly the names of the
    keys whose namespace is absent or the empty string; the bucket of a user
    namespace [u] holds exactly the names of the keys whose namespace is [u],
    provided [u] is not the empty string (so the bucket of the user namespace
    ["null"] is a bucket of its own, keyed by a string and not by the
    symbol); no bucket is ever named by the empty string. *)
Theorem null_namespace_bucket (data : ExtractionResults) (name u : string) :
  (is_Some (lookupKey (filterExtractionResult data) NullNamespace name)
   ↔ ∃ k, k ∈ allKeys data
          ∧ (namespace k = None ∨ namespace k = Some EmptyString)
          ∧ keyName k = name)
  ∧ (is_Some (lookupKey (filterExtractionResult data) (Named u) name)
     ↔ u ≠ EmptyString
       ∧ ∃ k, k ∈ allKeys data ∧ namespace k = Some u ∧ keyName k = name)
  ∧ filterExtractionResult data !! Named EmptyString = None.
Proof.
  split_and!.
  - rewrite lookupKey_is_Some. unfold collides. split.
    + intros (k & Hk & Hns & Hname). exists k. split_and!; [done| |done].
      by apply truthy_false, effectiveNamespace_null.
    + intros (k & Hk & Hns & Hname). exists k. split_and!; [done| |done].
      by apply effectiveNamespace_null, truthy_false.
  - rewrite lookupKey_is_Some. unfold collides. split.
    + intros (k & Hk & Hns & Hname).
      apply effectiveNamespace_Named in Hns as [Hns Hu]. by eauto.
    + intros (Hu & k & Hk & Hns & Hname). exists k. split_and!; [done| |done].
      by apply effectiveNamespace_Named.
  - apply eq_None_not_Some. rewrite bucket_is_Some.
    intros (k & _ & Hk). by apply effectiveNamespace_Named in Hk as [_ ?].
Qed.

(** ** The default namespace *)

(** C2, as stated, fails: a default namespace that is the empty string is
    supplied but never applied, and the key without a namespace stays in the
    null-namespace bucket. *)
Lemma blank_default_namespace_not_applied :
  ¬ defaultNamespaceApplied scenario_worker None scenario_files EmptyString
      (extractKeysOfFiles scenario_glob scenario_worker id
         scenario_files None (Some EmptyString)).
Proof.
  intros (data & Hrun & H). vm_compute in Hrun. injection Hrun as <-.
  destruct (H "b.ts" (mkResult [key_bye]) key_bye) as [[v Hv] _];
    [by right; left|done|by left|done|].
  by vm_compute in Hv.
Qed.

(** C2 (amended): when the default namespace is a non-empty string and every
    extraction succeeds, the run succeeds and every extracted key that lacks
    an explicit namespace is in the bucket of the default namespace and not
    in the null-namespace bucket, whatever the order in which the files
    settle; Scenario B yields the expected object in both orders. *)
Theorem default_namespace_bucket :
  (∀ glob callWorker settleOrder patterns extractor files d,
     d ≠ EmptyString →
     glob patterns = Fulfilled files →
     settleOrder files ≡ₚ files →
     (∀ f, f ∈ files → ∃ r, callWorker extractor f = Fulfilled r) →
     defaultNamespaceApplied callWorker extractor files d
       (extractKeysOfFiles glob callWorker settleOrder patterns extractor (Some d)))
  ∧ (∀ order, order ≡ₚ scenario_files →
       filtered (extractKeysOfFiles scenario_glob scenario_worker (λ _, order)
                   scenario_files None (Some "app"))
       = Fulfilled scenarioB_expected).
Proof.
  split.
  - intros glob callWorker settleOrder patterns extractor files d Hd Hglob Hperm Hall.
    unfold extractKeysOfFiles. rewrite Hglob.
    destruct (awaitAll_fulfils callWorker extractor (Some d) (settleOrder files)
                JsMap.empty) as (data & Hrun & Hin & Hout).
    { intros f Hf. apply Hall. by rewrite <- Hperm. }
    exists data. split; [done|].
    intros f r k Hf Hr Hk Hns. split.
    + apply lookupKey_is_Some.
      exists (applyDefaultNamespace (Some d) k). split; [|split].
      * apply allKeys_elem_of with (f := f) (r := recorded (Some d) r).
        -- apply Hin; [done|]. left. by rewrite Hperm.
        -- simpl. by apply list_elem_of_fmap_2.
      * by apply applyDefaultNamespace_falsy.
      * apply applyDefaultNamespace_keyName.
    + apply eq_None_not_Some. rewrite lookupKey_is_Some.
      intros (k' & Hk' & Hc & _).
      apply allKeys_elem_of_inv in Hk' as (f' & v & Hv & Hk').
      destruct (Hout f' v Hv) as [Hempty|(r' & _ & _ & ->)]; [by inversion Hempty|].
      simpl in Hk'. apply list_elem_of_fmap in Hk' as (k0 & -> & _).
      by apply applyDefaultNamespace_not_null in Hc.
  - intros order Hperm. symmetry in Hperm.
    apply Permutation_length_2_inv in Hperm as [->| ->]; by vm_compute.
Qed.

Lemma default_namespace_bucket_witness :
  "app" ≠ EmptyString
  ∧ defaultNamespaceApplied scenario_worker None scenario_files "app"
      (extractKeysOfFiles scenario_glob scenario_worker reverse
         scenario_files None (Some "app")).
Proof.
  split; [done|].
  apply (proj1 default_namespace_bucket); [done|reflexivity| |].
  - apply Permutation_swap.
  - intros f [->|[->|Hf]%elem_of_cons]%elem_of_cons.
    + by exists (mkResult [key_hello]).
    + by exists (mkResult [key_bye]).
    + by inversion Hf.
Defined.

(** ** Collisions *)

Lemma filtered_bucket_lookup data ns name v :
  lookupKey (filterExtractionResult data) ns name = Some v →
  ∃ b, filterExtractionResult data !! ns = Some b ∧ b !! name = Some v.
Proof.
  unfold lookupKey.
  destruct (filterExtractionResult data !! ns) as [b|]; [|done].
  simpl. by eauto.
Qed.

Lemma resolvesTo_effective k bucket :
  resolvesTo (namespace k) bucket ↔ effectiveNamespace k = bucket.
Proof.
  unfold resolvesTo. split.
  - intros [(u & Hns & Hu & ->)|[Hns ->]].
    + by apply effectiveNamespace_named.
    + by apply effectiveNamespace_null, truthy_false.
  - intros <-. destruct (effectiveNamespace k) as [|u] eqn:Hk.
    + right. split; [|done]. by apply truthy_false, effectiveNamespace_null.
    + left. exists u. apply effectiveNamespace_Named in Hk as [? ?]. by eauto.
Qed.

Lemma writtenFor_stored k : writtenFor (defaultValue k) (storedValue k).
Proof.
  unfold writtenFor, storedValue, orNull.
  destruct (truthy (defaultValue k)) eqn:Hv.
  - left. destruct (defaultValue k) as [s|]; [|done].
    exists s. split_and!; [done| |done]. by apply truthy_Some.
  - right. split; [|done]. by apply truthy_false.
Qed.

(** C3, as stated, fails: when the occurrence folded last has the empty
    string as default value, the value held is [null], which is the default
    value of none of the colliding occurrences. *)
Lemma blank_last_not_candidate : ¬ storesCandidate blank_last_data "ns" "x".
Proof.
  intros H. destruct (H None) as (k & Hk & _ & _ & Hv); [by vm_compute|].
  apply elem_of_cons in Hk as [->|Hk]; [done|].
  apply elem_of_cons in Hk as [->|Hk]; [done|]. by inversion Hk.
Qed.

(** C3 (amended): every key occurrence has a last colliding occurrence in
    the order of the fold (files in the iteration order of the map, keys in
    the order of each file); the bucket its namespace resolves to exists and
    holds exactly one entry under its name; the value of that entry is the
    default value of that last occurrence when it is a non-empty string,
    and [null] when it is absent or the empty string. *)
Theorem last_write_wins (data : ExtractionResults) (k : ExtractedKey)
    (bucket : Namespace) :
  k ∈ allKeys data →
  resolvesTo (namespace k) bucket →
  ∃ b pre last post v,
    allKeys data = pre ++ last :: post
    ∧ resolvesTo (namespace last) bucket
    ∧ keyName last = keyName k
    ∧ Forall (λ k', ¬ (resolvesTo (namespace k') bucket
                       ∧ keyName k' = keyName k)) post
    ∧ filterExtractionResult data !! bucket = Some b
    ∧ entriesOf b (keyName k) = [(keyName k, v)]
    ∧ writtenFor (defaultValue last) v.
Proof.
  intros Hk Hns. apply resolvesTo_effective in Hns.
  destruct (lastWrite_is_Some bucket (keyName k) (allKeys data) k)
    as [last Hlast]; [done|done|].
  destruct (lastWrite_split _ _ _ _ Hlast) as (pre & post & Heq & [Hc1 Hc2] & Hpost).
  destruct (filtered_bucket_lookup data bucket (keyName k) (storedValue last))
    as (b & Hb & Hv).
  { by rewrite lookupKey_filtered, Hlast. }
  exists b, pre, last, post, (storedValue last). split_and!; try done.
  - by apply resolvesTo_effective.
  - eapply Forall_impl; [exact Hpost|]. intros k' Hn [Hr Hname]. apply Hn.
    split; [by apply resolvesTo_effective | done].
  - by apply entriesOf_lookup.
  - apply writtenFor_stored.
Qed.

Lemma last_write_wins_witness :
  ∃ b, filterExtractionResult scenarioD !! Named "ns" = Some b
       ∧ entriesOf b "x" = [("x", Some "second")].
Proof.
  destruct (last_write_wins scenarioD (key_x "first") (Named "ns"))
    as (b & pre & last & post & v & Heq & _ & _ & Hpost & Hb & He & Hv).
  { by left. }
  { left. exists "ns". by split_and!. }
  exists b. split; [done|].
  change (keyName (key_x "first")) with "x" in He. rewrite He. do 2 f_equal.
  assert (last = key_x "second") as ->.
  { destruct pre as [|k0 [|k1 pre]].
    - injection Heq as <- <-. exfalso.
      apply Forall_cons in Hpost as [Hn _]. apply Hn.
      split; [|done]. left. exists "ns". by split_and!.
    - by injection Heq as <- <- <-.
    - injection Heq as _ _ Heq. by destruct pre. }
  destruct Hv as [(s & [= <-] & _ & ->)|[[[=]|[=]] _]]. done.
Defined.

Example scenarioD_filtered :
  filterExtractionResult scenarioD = {[ Named "ns" := {[ "x" := Some "second" ]} ]}
  ∧ filterExtractionResult (reverse scenarioD)
    = {[ Named "ns" := {[ "x" := Some "first" ]} ]}.
Proof. by vm_compute. Qed.

(** C5, as stated, fails: two files that both produce the key [x] of
    namespace [ns] with the empty string as default value leave [null], not
    the empty string, for that key. *)
Lemma blank_shared_value_not_held : ¬ holdsTriple blank_shared_data key_blank_value.
Proof.
  intros H. specialize (H "ns" eq_refl). by vm_compute in H.
Qed.

(** C5 (amended): when all the occurrences of a key in the bucket its
    namespace resolves to have the same default value, the aggregated
    object holds, for every order of the files, the same value for the key
    in that bucket: that default value when it is a non-empty string, and
    [null] when it is absent or the empty string. *)
Theorem agreeing_values_any_order (data1 data2 : ExtractionResults)
    (k0 : ExtractedKey) (bucket : Namespace) :
  data1 ≡ₚ data2 →
  k0 ∈ allKeys data1 →
  resolvesTo (namespace k0) bucket →
  (∀ k, k ∈ allKeys data1 →
        resolvesTo (namespace k) bucket →
        keyName k = keyName k0 →
        defaultValue k = defaultValue k0) →
  ∃ v,
    writtenFor (defaultValue k0) v
    ∧ lookupKey (filterExtractionResult data1) bucket (keyName k0) = Some v
    ∧ lookupKey (filterExtractionResult data2) bucket (keyName k0) = Some v.
Proof.
  intros Hperm Hk0 Hns Hall.
  assert (collides bucket (keyName k0) k0) as Hc0.
  { split; [by apply resolvesTo_effective | done]. }
  assert (∀ k, k ∈ allKeys data1 → collides bucket (keyName k0) k →
               storedValue k = storedValue k0) as Hall'.
  { intros k Hk [Hb Hname]. unfold storedValue.
    rewrite (Hall k); [done|done| |done]. by apply resolvesTo_effective. }
  assert (∀ k, k ∈ allKeys data2 → k ∈ allKeys data1) as Hsub.
  { intros k (f & r & Hf & Hk)%allKeys_elem_of_inv.
    apply allKeys_elem_of with (f := f) (r := r); [|done]. by rewrite Hperm. }
  assert (k0 ∈ allKeys data2) as Hk0'.
  { apply allKeys_elem_of_inv in Hk0 as (f & r & Hf & Hk).
    apply allKeys_elem_of with (f := f) (r := r); [|done]. by rewrite <- Hperm. }
  exists (storedValue k0). split; [apply writtenFor_stored|].
  split; rewrite lookupKey_filtered; apply lastWrite_value.
  - by exists k0.
  - done.
  - by exists k0.
  - intros k Hk. apply Hall'. by apply Hsub.
Qed.

Lemma agreeing_values_any_order_witness :
  lookupKey (filterExtractionResult
               [("a.ts", mkResult [key_hello]); ("b.ts", mkResult [key_bye; key_hello])])
            (Named "common") "hello" = Some (Some "Hello")
  ∧ lookupKey (filterExtractionResult
                 [("b.ts", mkResult [key_bye; key_hello]); ("a.ts", mkResult [key_hello])])
              (Named "common") "hello" = Some (Some "Hello").
Proof.
  destruct (agreeing_values_any_order
              [("a.ts", mkResult [key_hello]); ("b.ts", mkResult [key_bye; key_hello])]
              [("b.ts", mkResult [key_bye; key_hello]); ("a.ts", mkResult [key_hello])]
              key_hello (Named "common")) as (v & Hv & H1 & H2).
  - apply Permutation_swap.
  - by left.
  - left. exists "common". by split_and!.
  - intros k Hk Hns Hname. simpl in Hk.
    apply elem_of_cons in Hk as [->|Hk]; [done|].
    apply elem_of_cons in Hk as [->|Hk]; [done|].
    apply elem_of_cons in Hk as [->|Hk]; [done|].
    by inversion Hk.
  - destruct Hv as [(s & [= <-] & _ & ->)|[[[=]|[=]] _]]. by split.
Defined.

(** ** Determinism and idempotence *)

Lemma filterInto_absorbs (data : ExtractionResults) :
  filterInto (filterExtractionResult data) data = filterExtractionResult data.
Proof.
  apply filtered_ext.
  - intros ns. rewrite filterInto_allKeys, fold_is_Some, bucket_is_Some.
    split; [by intros [?|?] | by left].
  - intros ns name. rewrite filterInto_allKeys, lookupKey_fold, lookupKey_filtered.
    by destruct (lastWrite ns name (allKeys data)).
Qed.

(** The function on the heap: the object it builds holds what the function
    on values returns, and it writes to no reference that was in use. *)

Module HeapFacts.
Import Heap.

Lemma getProperty_props o ns s props :
  objects s !! o = Some props → getProperty o ns s = props !! ns.
Proof. unfold getProperty. by intros ->. Qed.

Lemma filterKeyAt_step base o s fk key :
  wellFormed s →
  represents base o s fk →
  wellFormed (filterKeyAt o s key)
  ∧ represents base o (filterKeyAt o s key) (filterKey fk key)
  ∧ next s ≤ next (filterKeyAt o s key)
  ∧ ∀ l, l < base →
         objects (filterKeyAt o s key) !! l = objects s !! l
         ∧ maps (filterKeyAt o s key) !! l = maps s !! l.
Proof.
  intros [Hwo Hwm] (props & Ho & Hbase & Hrefs & Hinj & Hfk).
  assert (o < next s) as Holt by (apply Hwo; eauto).
  unfold filterKeyAt, hasProperty.
  set (ns := effectiveNamespace key).
  rewrite (getProperty_props o ns s props Ho).
  destruct (props !! ns) as [m|] eqn:Hm.
  - rewrite bool_decide_eq_true_2 by eauto.
    rewrite (getProperty_props o ns s props Ho), Hm.
    destruct (Hrefs ns m Hm) as [Hmb [b Hb]].
    split_and!.
    + split; simpl; [done|]. intros l Hl. apply Hwm.
      by apply lookup_alter_is_Some in Hl.
    + exists props. simpl. split_and!; [done|done| |done|].
      * intros ns' m' Hm'. destruct (Hrefs ns' m' Hm') as [? ?].
        split; [done|]. by apply lookup_alter_is_Some.
      * intros ns'. destruct (decide (ns' = ns)) as [->|Hne].
        -- subst ns. rewrite filterKey_bucket, Hfk, Hm. simpl.
           by rewrite Hb, lookup_alter_eq, Hb.
        -- rewrite filterKey_other by done. rewrite Hfk.
           destruct (props !! ns') as [m'|] eqn:Hm'; simpl; [|done].
           rewrite lookup_alter_ne; [done|]. intros ->. apply Hne.
           by apply (Hinj ns' ns m').
    + done.
    + intros l Hl. simpl. split; [done|].
      rewrite lookup_alter_ne; [done|]. lia.
  - rewrite bool_decide_eq_false_2 by (by intros [? ?]).
    simpl. unfold getProperty. simpl.
    rewrite lookup_alter_eq, Ho. simpl. rewrite lookup_insert_eq.
    split_and!.
    + split; simpl.
      * intros l Hl. apply lookup_alter_is_Some in Hl. apply Hwo in Hl. lia.
      * intros l Hl. apply lookup_alter_is_Some in Hl.
        destruct (decide (l = next s)) as [->|Hne]; [lia|].
        rewrite lookup_insert_ne in Hl by done. apply Hwm in Hl. lia.
    + exists (<[ns := next s]> props). simpl. split_and!.
      * by rewrite lookup_alter_eq, Ho.
      * done.
      * intros ns' m' Hm'. destruct (decide (ns' = ns)) as [->|Hne].
        -- rewrite lookup_insert_eq in Hm'. injection Hm' as <-.
           split; [lia|]. rewrite lookup_alter_eq, lookup_insert_eq. by eauto.
        -- rewrite lookup_insert_ne in Hm' by done.
           destruct (Hrefs ns' m' Hm') as [? Hs]. split; [done|].
           apply lookup_alter_is_Some.
           rewrite lookup_insert_ne; [done|]. apply Hwm in Hs. lia.
      * intros ns1 ns2 x H1 H2.
        destruct (decide (ns1 = ns)) as [->|Hne1], (decide (ns2 = ns)) as [->|Hne2];
          [done| | |].
        -- rewrite lookup_insert_eq in H1. injection H1 as <-.
           rewrite lookup_insert_ne in H2 by done.
           destruct (Hrefs ns2 _ H2) as [_ Hs]. apply Hwm in Hs. lia.
        -- rewrite lookup_insert_eq in H2. injection H2 as <-.
           rewrite lookup_insert_ne in H1 by done.
           destruct (Hrefs ns1 _ H1) as [_ Hs]. apply Hwm in Hs. lia.
        -- rewrite lookup_insert_ne in H1, H2 by done. by eapply Hinj.
      * intros ns'. destruct (decide (ns' = ns)) as [->|Hne].
        -- subst ns. rewrite filterKey_bucket, Hfk, Hm. simpl.
           rewrite lookup_insert_eq. simpl.
           by rewrite lookup_alter_eq, lookup_insert_eq.
        -- rewrite filterKey_other by done. rewrite Hfk.
           rewrite lookup_insert_ne by done.
           destruct (props !! ns') as [m'|] eqn:Hm'; simpl; [|done].
           destruct (Hrefs ns' m' Hm') as [_ Hs]. apply Hwm in Hs.
           rewrite lookup_alter_ne by lia. by rewrite lookup_insert_ne by lia.
    + simpl. lia.
    + intros l Hl. simpl. split.
      * rewrite lookup_alter_ne; [done|]. lia.
      * rewrite lookup_alter_ne by lia. by rewrite lookup_insert_ne by lia.
Qed.

Lemma filterKeysAt_fold base o ks s fk :
  wellFormed s →
  represents base o s fk →
  wellFormed (fold_left (filterKeyAt o) ks s)
  ∧ represents base o (fold_left (filterKeyAt o) ks s) (fold_left filterKey ks fk)
  ∧ next s ≤ next (fold_left (filterKeyAt o) ks s)
  ∧ ∀ l, l < base →
         objects (fold_left (filterKeyAt o) ks s) !! l = objects s !! l
         ∧ maps (fold_left (filterKeyAt o) ks s) !! l = maps s !! l.
Proof.
  revert s fk. induction ks as [|k ks IH]; intros s fk Hwf Hrep; simpl.
  - by split_and!.
  - destruct (filterKeyAt_step base o s fk k Hwf Hrep) as (Hwf1 & Hrep1 & Hn1 & Hf1).
    destruct (IH _ _ Hwf1 Hrep1) as (Hwf2 & Hrep2 & Hn2 & Hf2).
    split_and!; [done|done|lia|].
    intros l Hl. destruct (Hf1 l Hl) as [<- <-]. by apply Hf2.
Qed.

Lemma filterExtractionResultIn_spec data s :
  wellFormed s →
  fst (filterExtractionResultIn data s) = next s
  ∧ wellFormed (snd (filterExtractionResultIn data s))
  ∧ represents (next s) (next s) (snd (filterExtractionResultIn data s))
      (filterExtractionResult data)
  ∧ next s < next (snd (filterExtractionResultIn data s))
  ∧ ∀ l, l < next s →
         objects (snd (filterExtractionResultIn data s)) !! l = objects s !! l
         ∧ maps (snd (filterExtractionResultIn data s)) !! l = maps s !! l.
Proof.
  intros [Hwo Hwm]. unfold filterExtractionResultIn, objectCreate. simpl.
  set (s0 := mkStore (<[next s := ∅]> (objects s)) (maps s) (S (next s))).
  assert (wellFormed s0) as Hwf0.
  { split; simpl.
    - intros l Hl. destruct (decide (l = next s)) as [->|Hne]; [lia|].
      rewrite lookup_insert_ne in Hl by done. apply Hwo in Hl. lia.
    - intros l Hl. apply Hwm in Hl. lia. }
  assert (represents (next s) (next s) s0 ∅) as Hrep0.
  { exists ∅. simpl. split_and!; [apply lookup_insert_eq|done| | |].
    - intros ns m Hm. by rewrite lookup_empty in Hm.
    - intros ns1 ns2 m Hm. by rewrite lookup_empty in Hm.
    - intros ns. by rewrite !lookup_empty. }
  assert (fold_left (λ st r, fold_left (filterKeyAt (next s)) (keys r) st)
                    (JsMap.values data) s0
          = fold_left (filterKeyAt (next s)) (allKeys data) s0) as ->.
  { unfold allKeys. generalize (JsMap.values data) as rs. intros rs.
    generalize s0. induction rs as [|r rs IH]; intros s'; simpl; [done|].
    by rewrite fold_left_app, IH. }
  destruct (filterKeysAt_fold (next s) (next s) (allKeys data) s0 ∅ Hwf0 Hrep0)
    as (Hwf & Hrep & Hn & Hf).
  split_and!; [done|done| |simpl in Hn; lia|].
  - unfold filterExtractionResult. by rewrite filterInto_allKeys.
  - intros l Hl. destruct (Hf l Hl) as [-> ->]. simpl.
    split; [|done]. rewrite lookup_insert_ne; [done|]. lia.
Qed.

Lemma structure_represents base o s fk :
  represents base o s fk → structure o s = fk.
Proof.
  intros (props & Ho & _ & _ & _ & Hfk). unfold structure. rewrite Ho. simpl.
  apply map_eq. intros ns. by rewrite lookup_omap, Hfk.
Qed.

Lemma structure_frame base o s fk s' :
  wellFormed s →
  represents base o s fk →
  (∀ l, l < next s → objects s' !! l = objects s !! l
                     ∧ maps s' !! l = maps s !! l) →
  structure o s' = structure o s.
Proof.
  intros [Hwo Hwm] (props & Ho & _ & Hrefs & _ & _) Hf. unfold structure.
  assert (objects s' !! o = objects s !! o) as ->.
  { apply Hf, Hwo. by eauto. }
  rewrite Ho. simpl. apply map_eq. intros ns. rewrite !lookup_omap.
  destruct (props !! ns) as [m|] eqn:Hm; simpl; [|done].
  destruct (Hrefs ns m Hm) as [_ Hs]. by apply Hf, Hwm.
Qed.

End HeapFacts.

(** C6: the result depends on the input map alone. Run on the heap, the
    function builds an object whose structure is the value of the function
    on its input, whatever the heap holds; it writes to no object that
    existed before the call. So a second run on the same input builds
    another object, with the same structure as the first, and leaves the
    first as it was. *)
Theorem aggregation_idempotent (data : ExtractionResults) (s s1 s2 : Heap.Store)
    (o1 o2 : nat) :
  Heap.wellFormed s →
  Heap.filterExtractionResultIn data s = (o1, s1) →
  Heap.filterExtractionResultIn data s1 = (o2, s2) →
  o1 ≠ o2
  ∧ Heap.structure o1 s1 = filterExtractionResult data
  ∧ Heap.structure o2 s2 = Heap.structure o1 s2
  ∧ Heap.structure o1 s2 = Heap.structure o1 s1
  ∧ ∀ l, l < Heap.next s →
         Heap.objects s2 !! l = Heap.objects s !! l
         ∧ Heap.maps s2 !! l = Heap.maps s !! l.
Proof.
  intros Hwf H1 H2.
  destruct (HeapFacts.filterExtractionResultIn_spec data s Hwf)
    as (Ho1 & Hwf1 & Hrep1 & Hn1 & Hf1).
  rewrite H1 in *. simpl in *.
  destruct (HeapFacts.filterExtractionResultIn_spec data s1 Hwf1)
    as (Ho2 & Hwf2 & Hrep2 & Hn2 & Hf2).
  rewrite H2 in *. simpl in *.
  subst o1 o2.
  assert (Heap.structure (Heap.next s) s2 = Heap.structure (Heap.next s) s1)
    as Hkeep.
  { by apply (HeapFacts.structure_frame (Heap.next s) (Heap.next s) s1
                (filterExtractionResult data) s2). }
  split_and!.
  - lia.
  - by eapply HeapFacts.structure_represents.
  - rewrite Hkeep.
    rewrite (HeapFacts.structure_represents _ _ _ _ Hrep1).
    by rewrite (HeapFacts.structure_represents _ _ _ _ Hrep2).
  - done.
  - intros l Hl. destruct (Hf2 l) as [-> ->]; [lia|]. by apply Hf1.
Qed.

Lemma aggregation_idempotent_witness :
  0 ≠ 3
  ∧ Heap.structure 0 (snd (Heap.filterExtractionResultIn scenarioA Heap.emptyStore))
    = filterExtractionResult scenarioA
  ∧ Heap.structure 3
      (snd (Heap.filterExtractionResultIn scenarioA
              (snd (Heap.filterExtractionResultIn scenarioA Heap.emptyStore))))
    = Heap.structure 0
        (snd (Heap.filterExtractionResultIn scenarioA
                (snd (Heap.filterExtractionResultIn scenarioA Heap.emptyStore)))).
Proof.
  destruct (aggregation_idempotent scenarioA Heap.emptyStore
              (snd (Heap.filterExtractionResultIn scenarioA Heap.emptyStore))
              (snd (Heap.filterExtractionResultIn scenarioA
                      (snd (Heap.filterExtractionResultIn scenarioA Heap.emptyStore))))
              0 3) as (Hne & Hs1 & Hs2 & _ & _).
  - split; intros l [x Hx]; simpl in Hx; by rewrite lookup_empty in Hx.
  - by vm_compute.
  - by vm_compute.
  - by split_and!.
Defined.

(** ** Empty default values *)

Lemma sameUpToBlank_filterKey result k k' :
  sameUpToBlank k k' → filterKey result k = filterKey result k'.
Proof.
  intros (Hname & Hns & Hv). unfold filterKey, effectiveNamespace, storedValue.
  rewrite Hname, Hns. destruct Hv as [->|[H1 H2]]; [done|].
  unfold orNull. by rewrite H1, H2.
Qed.

Lemma sameUpToBlank_fold ks ks' result :
  Forall2 sameUpToBlank ks ks' →
  fold_left filterKey ks result = fold_left filterKey ks' result.
Proof.
  intros H. revert result.
  induction H as [|k k' ks ks' Hk _ IH]; intros result; simpl; [done|].
  by rewrite (sameUpToBlank_filterKey result k k'), IH.
Qed.

(** C9: a key whose default value is absent or the empty string is written
    as [null]: the write itself stores [null] under the key's name in the
    key's bucket; the aggregated object holds [null] there when no later
    occurrence collides with the key; and two inputs whose occurrences
    differ only by an empty default value in place of an absent one give
    equal objects. *)
Theorem blank_default_is_null :
  (∀ result k,
     truthy (defaultValue k) = false →
     lookupKey (filterKey result k) (effectiveNamespace k) (keyName k) = Some None)
  ∧ (∀ data pre k post,
       truthy (defaultValue k) = false →
       allKeys data = pre ++ k :: post →
       Forall (λ k', ¬ collides (effectiveNamespace k) (keyName k) k') post →
       lookupKey (filterExtractionResult data) (effectiveNamespace k) (keyName k)
       = Some None)
  ∧ (∀ data1 data2,
       Forall2 sameUpToBlank (allKeys data1) (allKeys data2) →
       filterExtractionResult data1 = filterExtractionResult data2).
Proof.
  split_and!.
  - intros result k Hv. rewrite lookupKey_filterKey.
    rewrite decide_True by done. by rewrite storedValue_falsy.
  - intros data pre k post Hv Heq Hpost.
    rewrite lookupKey_filtered, Heq.
    rewrite lastWrite_last by done. simpl. by rewrite storedValue_falsy.
  - intros data1 data2 H. unfold filterExtractionResult.
    rewrite !filterInto_allKeys. by apply sameUpToBlank_fold.
Qed.

Lemma blank_default_is_null_witness :
  lookupKey (filterKey ∅ key_blank_value) (Named "ns") "x" = Some None
  ∧ lookupKey (filterExtractionResult
                 [("a.ts", mkResult [key_x "first"; key_no_value; key_hello])])
              (Named "ns") "x" = Some None
  ∧ filterExtractionResult [("a.ts", mkResult [key_blank_value])]
    = filterExtractionResult [("a.ts", mkResult [key_no_value])].
Proof.
  destruct blank_default_is_null as (Hstep & Hlast & Hsame).
  split_and!.
  - by apply (Hstep ∅ key_blank_value).
  - apply (Hlast [("a.ts", mkResult [key_x "first"; key_no_value; key_hello])]
             [key_x "first"] key_no_value [key_hello]); [done|done|].
    apply Forall_cons. split; [|by apply Forall_nil].
    by intros [[=] _].
  - apply Hsame. simpl. constructor; [|by constructor].
    split_and!; [done|done|]. by right.
Defined.

(** ** Buckets are never empty *)

(** C10: every bucket of the aggregated object comes from a key of the input
    that resolves to its namespace, and holds an entry under that key's
    name; in particular no bucket is empty. *)
Theorem buckets_nonempty (data : ExtractionResults) (ns : Namespace) (b : Bucket) :
  filterExtractionResult data !! ns = Some b →
  b ≠ ∅
  ∧ ∃ k, k ∈ allKeys data ∧ effectiveNamespace k = ns ∧ is_Some (b !! keyName k).
Proof.
  intros Hb.
  assert (∃ k, k ∈ allKeys data ∧ effectiveNamespace k = ns
               ∧ is_Some (b !! keyName k)) as (k & Hk & Hns & Hv).
  { destruct (proj1 (bucket_is_Some data ns)) as (k & Hk & Hns); [by eauto|].
    exists k. split_and!; [done|done|].
    rewrite <- (lookupKey_bucket _ ns b (keyName k) Hb).
    apply lookupKey_is_Some. by exists k. }
  split; [|by eauto].
  intros ->. rewrite lookup_empty in Hv. by destruct Hv.
Qed.

Lemma buckets_nonempty_witness :
  ({[ "hello" := Some "Hello" ]} : Bucket) ≠ ∅
  ∧ ∃ k, k ∈ allKeys scenarioA ∧ effectiveNamespace k = Named "common"
         ∧ is_Some (({[ "hello" := Some "Hello" ]} : Bucket) !! keyName k).
Proof.
  apply (buckets_nonempty scenarioA (Named "common")). by vm_compute.
Defined.

(** ** All or nothing *)

(** C4: when the extractor throws for one of the submitted files, the call
    is rejected, in whatever order the files settle: it fulfils with no map
    of results, so no aggregated object, partial or not, comes out of it. *)
Theorem failing_file_fails_run
    (glob : list string → Settled (list string))
    (callWorker : option string → string → Settled ExtractionResult)
    (settleOrder : list string → list string)
    (patterns : list string) (extractor defaultNamespace : option string)
    (files : list string) (f e : string) :
  glob patterns = Fulfilled files →
  settleOrder files ≡ₚ files →
  f ∈ files →
  callWorker extractor f = Rejected e →
  (∃ e', extractKeysOfFiles glob callWorker settleOrder patterns extractor
           defaultNamespace = Rejected e')
  ∧ (∀ partial,
       filtered (extractKeysOfFiles glob callWorker settleOrder patterns extractor
                   defaultNamespace) ≠ Fulfilled partial).
Proof.
  intros Hglob Hperm Hf He.
  destruct (awaitAll_rejects callWorker extractor defaultNamespace
              (settleOrder files) JsMap.empty f e) as [e' He']; [|done|].
  { by rewrite Hperm. }
  unfold extractKeysOfFiles. rewrite Hglob, He'. split; [by eauto|done].
Qed.

Lemma failing_file_fails_run_witness :
  (∃ e', extractKeysOfFiles scenario_glob scenario_worker reverse
           ["a.ts"; "c.ts"; "b.ts"] None (Some "app") = Rejected e')
  ∧ (∀ partial,
       filtered (extractKeysOfFiles scenario_glob scenario_worker reverse
                   ["a.ts"; "c.ts"; "b.ts"] None (Some "app")) ≠ Fulfilled partial).
Proof.
  apply (failing_file_fails_run scenario_glob scenario_worker reverse
           ["a.ts"; "c.ts"; "b.ts"] None (Some "app")
           ["a.ts"; "c.ts"; "b.ts"] "c.ts" "extractor failed").
  - reflexivity.
  - apply reverse_Permutation.
  - right. left.
  - reflexivity.
Defined.

(** ** No files *)

(** C7: when the patterns match no file, the extraction fulfils with an
    empty map and the aggregated object is empty: it has no bucket at all,
    not even a null-namespace bucket. *)
Theorem no_files_empty_result
    (glob : list string → Settled (list string))
    (callWorker : option string → string → Settled ExtractionResult)
    (settleOrder : list string → list string)
    (patterns : list string) (extractor defaultNamespace : option string) :
  glob patterns = Fulfilled [] →
  settleOrder [] ≡ₚ [] →
  extractKeysOfFiles glob callWorker settleOrder patterns extractor
    defaultNamespace = Fulfilled JsMap.empty
  ∧ filtered (extractKeysOfFiles glob callWorker settleOrder patterns extractor
                defaultNamespace) = Fulfilled ∅.
Proof.
  intros Hglob Hperm. apply Permutation_nil_r in Hperm.
  unfold extractKeysOfFiles. rewrite Hglob, Hperm. by split.
Qed.

Lemma no_files_empty_result_witness :
  extractKeysOfFiles (λ _, Fulfilled []) scenario_worker reverse
    ["src/**/*.tsx"] None (Some "app") = Fulfilled JsMap.empty
  ∧ filtered (extractKeysOfFiles (λ _, Fulfilled []) scenario_worker reverse
                ["src/**/*.tsx"] None (Some "app")) = Fulfilled ∅.
Proof.
  apply (no_files_empty_result (λ _, Fulfilled []) scenario_worker reverse);
    reflexivity.
Defined.

(** ** The bound of the worker pool *)

Module WorkerPoolFacts.
Import WorkerPool.

Lemma release_length file running :
  length (release file running) ≤ length running.
Proof.
  induction running as [|f running IH]; simpl; [done|].
  case_decide; simpl; lia.
Qed.

Lemma step_slots p ev p' : step p ev = Some p' → slots p' = slots p.
Proof.
  destruct ev as [|file]; simpl.
  - destruct (waiting p); [done|]. case_decide; [|done]. by intros [= <-].
  - case_decide; [|done]. by intros [= <-].
Qed.

Lemma step_bound p ev p' :
  step p ev = Some p' →
  length (inFlight p) ≤ slots p → length (inFlight p') ≤ slots p'.
Proof.
  destruct ev as [|file]; simpl.
  - destruct (waiting p); [done|]. case_decide; [|done].
    intros [= <-] _. simpl. lia.
  - case_decide; [|done]. intros [= <-] Hle. simpl.
    pose proof (release_length file (inFlight p)). lia.
Qed.

Lemma run_bound evs p p' :
  run p evs = Some p' →
  length (inFlight p) ≤ slots p →
  length (inFlight p') ≤ slots p' ∧ slots p' = slots p.
Proof.
  revert p. induction evs as [|ev evs IH]; intros p; simpl.
  - intros [= <-] Hle. by split.
  - destruct (step p ev) as [p1|] eqn:Hstep; [|done].
    intros Hrun Hle.
    destruct (IH p1 Hrun (step_bound _ _ _ Hstep Hle)) as [Hb Hs].
    split; [done|]. rewrite Hs. by eapply step_slots.
Qed.

(** The pool does run every file: one at a time is a run of the pool as soon
    as it has one slot. *)
Lemma run_sequential N files finished :
  0 < N →
  run (mkPool N files [] finished) (sequential files)
  = Some (mkPool N [] [] (reverse files ++ finished)).
Proof.
  intros HN. revert finished.
  induction files as [|f files IH]; intros finished; [done|].
  simpl. rewrite decide_True by (simpl; lia). simpl.
  rewrite decide_True by left. simpl. rewrite decide_True by done.
  rewrite IH. by rewrite reverse_cons, <- app_assoc.
Qed.

End WorkerPoolFacts.

(** C8: in every run of the pool over the files that [extractKeysOfFiles]
    submits, whatever the interleaving of starts and completions, the number
    of files in flight never exceeds the number [N] of slots. *)
Theorem in_flight_bounded (N : nat) (files : list string)
    (evs : list WorkerPool.Event) (p : WorkerPool.Pool) :
  WorkerPool.run (WorkerPool.submitAll N files) evs = Some p →
  length (WorkerPool.inFlight p) ≤ N.
Proof.
  intros Hrun.
  destruct (WorkerPoolFacts.run_bound evs _ _ Hrun) as [Hb Hs]; [simpl; lia|].
  by rewrite Hs in Hb.
Qed.

Lemma in_flight_bounded_witness :
  length (WorkerPool.inFlight
            (WorkerPool.mkPool 2 [] ["c.ts"; "b.ts"] ["a.ts"])) ≤ 2.
Proof.
  apply (in_flight_bounded 2 ["a.ts"; "b.ts"; "c.ts"]
           [WorkerPool.Start; WorkerPool.Start; WorkerPool.Finish "a.ts";
            WorkerPool.Start]).
  reflexivity.
Defined.

Example third_start_refused :
  WorkerPool.run (WorkerPool.submitAll 2 ["a.ts"; "b.ts"; "c.ts"])
    [WorkerPool.Start; WorkerPool.Start; WorkerPool.Start] = None.
Proof. reflexivity. Qed.

(** * Further properties of the runner *)

Lemma JsMap_set_elem_of_keys {V} (m : JsMap.t V) k v k' :
  k' ∈ (JsMap.set m k v).*1 ↔ k' = k ∨ k' ∈ m.*1.
Proof.
  induction m as [|[k0 v0] m IH]; simpl.
  - rewrite list_elem_of_singleton. split; [by left|]. intros [?|H]; [done|].
    by inversion H.
  - case_decide; simpl; rewrite !elem_of_cons.
    + subst k0. split; [intros [?|?]; by eauto|]. intros [?|[?|?]]; by eauto.
    + rewrite IH. split; [intros [?|[?|?]]; by eauto|].
      intros [?|[?|?]]; by eauto.
Qed.

Lemma JsMap_set_NoDup {V} (m : JsMap.t V) k v :
  NoDup m.*1 → NoDup (JsMap.set m k v).*1.
Proof.
  induction m as [|[k0 v0] m IH]; simpl.
  - intros _. apply NoDup_singleton.
  - intros [Hk0 Hm]%NoDup_cons. case_decide; simpl.
    + subst k0. by apply NoDup_cons.
    + apply NoDup_cons. split; [|by apply IH].
      rewrite JsMap_set_elem_of_keys. by intros [?|?].
Qed.

Lemma awaitAll_keys callWorker extractor defaultNamespace order result data :
  awaitAll callWorker extractor defaultNamespace order result = Fulfilled data →
  NoDup result.*1 →
  NoDup data.*1 ∧ ∀ f, f ∈ data.*1 ↔ f ∈ result.*1 ∨ f ∈ order.
Proof.
  revert result. induction order as [|f0 order IH]; intros result; simpl.
  - intros [= <-] Hnd. split; [done|]. intros f. split; [by left|].
    intros [?|H]; [done|]. by inversion H.
  - unfold fileCallback, extractKeysFromFile.
    destruct (callWorker extractor f0) as [r0|e0]; [|done].
    intros Hrun Hnd.
    destruct (IH _ Hrun) as [Hnd' Hin]; [by apply JsMap_set_NoDup|].
    split; [done|]. intros f. rewrite Hin, JsMap_set_elem_of_keys, elem_of_cons.
    split; [intros [[?|?]|?]; by eauto|]. intros [?|[?|?]]; by eauto.
Qed.

Lemma recorded_falsy d r : truthy d = false → recorded d r = r.
Proof.
  intros Hd. destruct r as [ks]. unfold recorded. simpl. f_equal.
  induction ks as [|k ks IH]; simpl; [done|]. rewrite IH. f_equal.
  unfold applyDefaultNamespace. rewrite Hd. by rewrite andb_false_r.
Qed.

(** X1: an explicit non-empty namespace is never replaced by the default
    namespace: whatever default the run is given, the key is recorded as
    extracted and lands in the bucket of its own namespace. *)
Theorem explicit_namespace_wins
    (glob : list string → Settled (list string))
    (callWorker : option string → string → Settled ExtractionResult)
    (settleOrder : list string → list string)
    (patterns : list string) (extractor defaultNamespace : option string)
    (files : list string) (f : string) (r : ExtractionResult)
    (k : ExtractedKey) (u : string) :
  glob patterns = Fulfilled files →
  settleOrder files ≡ₚ files →
  (∀ g, g ∈ files → ∃ r', callWorker extractor g = Fulfilled r') →
  f ∈ files →
  callWorker extractor f = Fulfilled r →
  k ∈ keys r →
  namespace k = Some u →
  u ≠ EmptyString →
  ∃ data,
    extractKeysOfFiles glob callWorker settleOrder patterns extractor
      defaultNamespace = Fulfilled data
    ∧ k ∈ allKeys data
    ∧ landsIn data k (Named u).
Proof.
  intros Hglob Hperm Hall Hf Hr Hk Hns Hu.
  unfold extractKeysOfFiles. rewrite Hglob.
  destruct (awaitAll_fulfils callWorker extractor defaultNamespace
              (settleOrder files) JsMap.empty) as (data & Hrun & Hin & _).
  { intros g Hg. apply Hall. by rewrite <- Hperm. }
  exists data. split; [done|].
  assert (k ∈ allKeys data) as Hkin.
  { apply allKeys_elem_of with (f := f) (r := recorded defaultNamespace r).
    - apply Hin; [done|]. left. by rewrite Hperm.
    - simpl. rewrite <- (applyDefaultNamespace_truthy defaultNamespace k).
      + by apply list_elem_of_fmap_2.
      + rewrite Hns. by apply truthy_Some. }
  split; [done|]. apply lookupKey_is_Some. exists k. split; [done|].
  split; [|done]. by apply effectiveNamespace_named.
Qed.

Lemma explicit_namespace_wins_witness :
  ∃ data,
    extractKeysOfFiles scenario_glob scenario_worker reverse scenario_files
      None (Some "app") = Fulfilled data
    ∧ key_hello ∈ allKeys data
    ∧ landsIn data key_hello (Named "common").
Proof.
  apply (explicit_namespace_wins scenario_glob scenario_worker reverse
           scenario_files None (Some "app") scenario_files "a.ts"
           (mkResult [key_hello]) key_hello "common").
  - reflexivity.
  - apply reverse_Permutation.
  - intros g [->|[->|Hg]%elem_of_cons]%elem_of_cons.
    + by exists (mkResult [key_hello]).
    + by exists (mkResult [key_bye]).
    + by inversion Hg.
  - by left.
  - reflexivity.
  - by left.
  - reflexivity.
  - done.
Defined.

(** X2: without a default namespace ([undefined] or the empty string) the
    run records for every file exactly what its extraction returned. *)
Theorem no_default_records_as_extracted
    (glob : list string → Settled (list string))
    (callWorker : option string → string → Settled ExtractionResult)
    (settleOrder : list string → list string)
    (patterns : list string) (extractor defaultNamespace : option string)
    (files : list string) :
  truthy defaultNamespace = false →
  glob patterns = Fulfilled files →
  settleOrder files ≡ₚ files →
  (∀ g, g ∈ files → ∃ r', callWorker extractor g = Fulfilled r') →
  ∃ data,
    extractKeysOfFiles glob callWorker settleOrder patterns extractor
      defaultNamespace = Fulfilled data
    ∧ (∀ f r, f ∈ files → callWorker extractor f = Fulfilled r → (f, r) ∈ data)
    ∧ (∀ f v, (f, v) ∈ data → f ∈ files ∧ callWorker extractor f = Fulfilled v).
Proof.
  intros Hd Hglob Hperm Hall.
  unfold extractKeysOfFiles. rewrite Hglob.
  destruct (awaitAll_fulfils callWorker extractor defaultNamespace
              (settleOrder files) JsMap.empty) as (data & Hrun & Hin & Hout).
  { intros g Hg. apply Hall. by rewrite <- Hperm. }
  exists data. split_and!; [done| |].
  - intros f r Hf Hr. rewrite <- (recorded_falsy defaultNamespace r Hd).
    apply Hin; [done|]. left. by rewrite Hperm.
  - intros f v Hv. destruct (Hout f v Hv) as [H|(r & Hf & Hr & ->)].
    + by inversion H.
    + rewrite recorded_falsy by done. split; [by rewrite <- Hperm | done].
Qed.

Lemma no_default_records_as_extracted_witness :
  ∃ data,
    extractKeysOfFiles scenario_glob scenario_worker reverse scenario_files
      None (Some EmptyString) = Fulfilled data
    ∧ (∀ f r, f ∈ scenario_files → scenario_worker None f = Fulfilled r →
              (f, r) ∈ data)
    ∧ (∀ f v, (f, v) ∈ data →
              f ∈ scenario_files ∧ scenario_worker None f = Fulfilled v).
Proof.
  apply (no_default_records_as_extracted scenario_glob scenario_worker reverse
           scenario_files None (Some EmptyString) scenario_files).
  - reflexivity.
  - reflexivity.
  - apply reverse_Permutation.
  - intros g [->|[->|Hg]%elem_of_cons]%elem_of_cons.
    + by exists (mkResult [key_hello]).
    + by exists (mkResult [key_bye]).
    + by inversion Hg.
Defined.

(** X3: the map of results has exactly one entry per discovered file, also
    when the list of files names a file twice. *)
Theorem one_entry_per_file
    (glob : list string → Settled (list string))
    (callWorker : option string → string → Settled ExtractionResult)
    (settleOrder : list string → list string)
    (patterns : list string) (extractor defaultNamespace : option string)
    (files : list string) :
  glob patterns = Fulfilled files →
  settleOrder files ≡ₚ files →
  (∀ g, g ∈ files → ∃ r', callWorker extractor g = Fulfilled r') →
  ∃ data : ExtractionResults,
    extractKeysOfFiles glob callWorker settleOrder patterns extractor
      defaultNamespace = Fulfilled data
    ∧ NoDup data.*1
    ∧ ∀ f, f ∈ data.*1 ↔ f ∈ files.
Proof.
  intros Hglob Hperm Hall.
  unfold extractKeysOfFiles. rewrite Hglob.
  destruct (awaitAll_fulfils callWorker extractor defaultNamespace
              (settleOrder files) JsMap.empty) as (data & Hrun & _ & _).
  { intros g Hg. apply Hall. by rewrite <- Hperm. }
  exists data. split; [done|].
  destruct (awaitAll_keys _ _ _ _ _ _ Hrun) as [Hnd Hin]; [apply NoDup_nil_2|].
  split; [done|]. intros f. rewrite Hin, Hperm. split; [|by right].
  intros [H|?]; [by inversion H | done].
Qed.

Lemma one_entry_per_file_witness :
  ∃ data : ExtractionResults,
    extractKeysOfFiles (λ _, Fulfilled ["a.ts"; "b.ts"; "a.ts"]) scenario_worker
      reverse ["*.ts"] None None = Fulfilled data
    ∧ NoDup data.*1
    ∧ ∀ f, f ∈ data.*1 ↔ f ∈ ["a.ts"; "b.ts"; "a.ts"].
Proof.
  apply (one_entry_per_file (λ _, Fulfilled ["a.ts"; "b.ts"; "a.ts"])
           scenario_worker reverse ["*.ts"] None None).
  - reflexivity.
  - apply reverse_Permutation.
  - intros g [->|[->|[->|Hg]%elem_of_cons]%elem_of_cons]%elem_of_cons.
    + by exists (mkResult [key_hello]).
    + by exists (mkResult [key_bye]).
    + by exists (mkResult [key_hello]).
    + by inversion Hg.
Defined.

(** X4: when the discovered files are distinct, the map of results lists
    them in the order in which their extractions settled, which need not be
    the order of the file list. *)
Theorem results_in_settle_order
    (glob : list string → Settled (list string))
    (callWorker : option string → string → Settled ExtractionResult)
    (settleOrder : list string → list string)
    (patterns : list string) (extractor defaultNamespace : option string)
    (files : list string) :
  glob patterns = Fulfilled files →
  settleOrder files ≡ₚ files →
  NoDup files →
  (∀ g, g ∈ files → ∃ r', callWorker extractor g = Fulfilled r') →
  ∃ data : ExtractionResults,
    extractKeysOfFiles glob callWorker settleOrder patterns extractor
      defaultNamespace = Fulfilled data
    ∧ data.*1 = settleOrder files.
Proof.
  intros Hglob Hperm Hnd Hall.
  unfold extractKeysOfFiles. rewrite Hglob.
  destruct (awaitAll_fulfils callWorker extractor defaultNamespace
              (settleOrder files) JsMap.empty) as (data & Hrun & _ & _).
  { intros g Hg. apply Hall. by rewrite <- Hperm. }
  exists data. split; [done|].
  apply (awaitAll_settle_order callWorker extractor defaultNamespace
           (settleOrder files) JsMap.empty data); [|done].
  simpl. by rewrite Hperm.
Qed.

Lemma results_in_settle_order_witness :
  ∃ data : ExtractionResults,
    extractKeysOfFiles scenario_glob scenario_worker reverse scenario_files
      None None = Fulfilled data
    ∧ data.*1 = ["b.ts"; "a.ts"].
Proof.
  apply (results_in_settle_order scenario_glob scenario_worker reverse
           scenario_files None None scenario_files).
  - reflexivity.
  - apply reverse_Permutation.
  - apply NoDup_cons. split; [|apply NoDup_singleton].
    by intros [=]%list_elem_of_singleton.
  - intros g [->|[->|Hg]%elem_of_cons]%elem_of_cons.
    + by exists (mkResult [key_hello]).
    + by exists (mkResult [key_bye]).
    + by inversion Hg.
Defined.

Lemma awaitAll_first_rejection callWorker extractor defaultNamespace
    pre f post result e :
  (∀ g, g ∈ pre → ∃ r, callWorker extractor g = Fulfilled r) →
  callWorker extractor f = Rejected e →
  awaitAll callWorker extractor defaultNamespace (pre ++ f :: post) result
  = Rejected e.
Proof.
  intros Hpre He. revert result.
  induction pre as [|g pre IH]; intros result; simpl.
  - unfold fileCallback, extractKeysFromFile. by rewrite He.
  - unfold fileCallback, extractKeysFromFile.
    destruct (Hpre g) as [r Hr]; [by left|]. rewrite Hr.
    apply IH. intros g' Hg'. apply Hpre. by right.
Qed.

(** X5: the call is rejected with the reason of the first extraction that
    fails in settle order, whatever the files settling after it do. *)
Theorem first_rejection_is_reported
    (glob : list string → Settled (list string))
    (callWorker : option string → string → Settled ExtractionResult)
    (settleOrder : list string → list string)
    (patterns : list string) (extractor defaultNamespace : option string)
    (files pre post : list string) (f e : string) :
  glob patterns = Fulfilled files →
  settleOrder files = pre ++ f :: post →
  (∀ g, g ∈ pre → ∃ r, callWorker extractor g = Fulfilled r) →
  callWorker extractor f = Rejected e →
  extractKeysOfFiles glob callWorker settleOrder patterns extractor
    defaultNamespace = Rejected e.
Proof.
  intros Hglob Horder Hpre He.
  unfold extractKeysOfFiles. rewrite Hglob, Horder.
  by apply awaitAll_first_rejection.
Qed.

Lemma first_rejection_is_reported_witness :
  extractKeysOfFiles scenario_glob scenario_worker reverse
    ["c.ts"; "a.ts"; "b.ts"] None None = Rejected "extractor failed".
Proof.
  apply (first_rejection_is_reported scenario_glob scenario_worker reverse
           ["c.ts"; "a.ts"; "b.ts"] None None ["c.ts"; "a.ts"; "b.ts"]
           ["b.ts"; "a.ts"] [] "c.ts" "extractor failed").
  - reflexivity.
  - reflexivity.
  - intros g [->|[->|Hg]%elem_of_cons]%elem_of_cons.
    + by exists (mkResult [key_bye]).
    + by exists (mkResult [key_hello]).
    + by inversion Hg.
  - reflexivity.
Defined.

(** * Further properties of the aggregation *)

Lemma allKeys_app (d1 d2 : ExtractionResults) :
  allKeys (d1 ++ d2) = allKeys d1 ++ allKeys d2.
Proof.
  unfold allKeys, JsMap.values. by rewrite map_app, flat_map_app.
Qed.

Lemma lastWrite_app ns name ks1 ks2 :
  lastWrite ns name (ks1 ++ ks2)
  = match lastWrite ns name ks2 with
    | Some k => Some k
    | None => lastWrite ns name ks1
    end.
Proof.
  induction ks1 as [|k ks1 IH]; simpl.
  - by destruct (lastWrite ns name ks2).
  - rewrite IH. by destruct (lastWrite ns name ks2).
Qed.

(** X6: the value stored for a key depends only on the occurrences that
    resolve to its bucket and name: a file none of whose keys collides with
    the key can be added anywhere in the map, or left out, without changing
    that value. *)
Theorem other_keys_do_not_interfere (d1 d2 : ExtractionResults)
    (f : string) (r : ExtractionResult) (ns : Namespace) (name : string) :
  (∀ k, k ∈ keys r → ¬ collides ns name k) →
  lookupKey (filterExtractionResult (d1 ++ (f, r) :: d2)) ns name
  = lookupKey (filterExtractionResult (d1 ++ d2)) ns name.
Proof.
  intros Hr. rewrite !lookupKey_filtered. f_equal.
  rewrite !allKeys_app. change ((f, r) :: d2) with ([(f, r)] ++ d2).
  rewrite allKeys_app, !lastWrite_app.
  destruct (lastWrite ns name (allKeys d2)); [done|].
  assert (lastWrite ns name (allKeys [(f, r)]) = None) as ->; [|done].
  apply lastWrite_None, Forall_forall. intros k Hk. apply Hr.
  unfold allKeys in Hk. simpl in Hk. by rewrite app_nil_r in Hk.
Qed.

Lemma other_keys_do_not_interfere_witness :
  lookupKey (filterExtractionResult
               ([("a.ts", mkResult [key_x "first"])]
                ++ ("b.ts", mkResult [key_hello; key_bye])
                   :: [("c.ts", mkResult [key_x "second"])]))
            (Named "ns") "x"
  = lookupKey (filterExtractionResult
                 ([("a.ts", mkResult [key_x "first"])]
                  ++ [("c.ts", mkResult [key_x "second"])]))
              (Named "ns") "x".
Proof.
  apply (other_keys_do_not_interfere [("a.ts", mkResult [key_x "first"])]
           [("c.ts", mkResult [key_x "second"])] "b.ts"
           (mkResult [key_hello; key_bye]) (Named "ns") "x").
  intros k [->|[->|Hk]%elem_of_cons]%elem_of_cons.
  - by intros [[=] _].
  - by intros [[=] _].
  - by inversion Hk.
Defined.

(** X7: the fold only adds: a bucket and an entry that the object holds are
    still there after any further results are folded into it, though the
    value of the entry may have been overwritten. *)
Theorem aggregation_never_removes (result : FilteredKeys)
    (data : ExtractionResults) (ns : Namespace) (name : string) :
  (is_Some (result !! ns) → is_Some (filterInto result data !! ns))
  ∧ (is_Some (lookupKey result ns name) →
     is_Some (lookupKey (filterInto result data) ns name)).
Proof.
  rewrite filterInto_allKeys. split.
  - intros H. apply fold_is_Some. by left.
  - intros H. rewrite lookupKey_fold.
    by destruct (lastWrite ns name (allKeys data)).
Qed.

Lemma aggregation_never_removes_witness :
  is_Some (lookupKey (filterInto (filterExtractionResult scenarioA) scenarioD)
             (Named "common") "hello").
Proof.
  apply (proj2 (aggregation_never_removes (filterExtractionResult scenarioA)
                  scenarioD (Named "common") "hello")).
  vm_compute. by eexists.
Defined.

(** X8: the default-namespace rewrite keeps every key in place and changes
    nothing but namespaces: the recorded keys match the extracted ones one
    by one in name, default value and line, and a namespace is either kept
    or replaced by the default; rewriting a second time changes nothing. *)
Theorem rewrite_touches_only_namespaces (d : option string) (r : ExtractionResult) :
  Forall2 (λ k k', keyName k' = keyName k
                   ∧ defaultValue k' = defaultValue k
                   ∧ line k' = line k
                   ∧ (namespace k' = namespace k ∨ namespace k' = d))
          (keys r) (keys (recorded d r))
  ∧ recorded d (recorded d r) = recorded d r.
Proof.
  destruct r as [ks]. unfold recorded. simpl. split.
  - induction ks as [|k ks IH]; simpl; constructor; [|done].
    unfold applyDefaultNamespace.
    destruct (negb (truthy (namespace k)) && truthy d); simpl; by eauto.
  - f_equal. induction ks as [|k ks IH]; simpl; [done|]. rewrite IH. f_equal.
    unfold applyDefaultNamespace at 1.
    destruct (negb (truthy (namespace (applyDefaultNamespace d k))) && truthy d)
      eqn:Hc; [|done].
    apply andb_true_iff in Hc as [Hk Hd]. apply negb_true_iff in Hk.
    unfold applyDefaultNamespace in *.
    destruct (truthy (namespace k)) eqn:Hn; simpl in *; [congruence|].
    rewrite Hd in *. simpl in *. congruence.
Qed.

Lemma bucketSize_filterKey (result : FilteredKeys) k ns :
  from_option size 0 (filterKey result k !! ns)
  ≤ from_option size 0 (result !! ns)
    + (if decide (effectiveNamespace k = ns) then 1 else 0).
Proof.
  destruct (decide (effectiveNamespace k = ns)) as [<-|Hne].
  - rewrite filterKey_bucket. simpl.
    destruct (result !! effectiveNamespace k) as [b|]; simpl.
    + destruct (b !! keyName k) eqn:Hb.
      * rewrite map_size_insert_Some by eauto. lia.
      * rewrite map_size_insert_None by done. lia.
    + rewrite map_size_insert_None by apply lookup_empty.
      rewrite map_size_empty. lia.
  - rewrite filterKey_other by done. lia.
Qed.

Lemma bucketSize_fold ks (result : FilteredKeys) ns :
  from_option size 0 (fold_left filterKey ks result !! ns)
  ≤ from_option size 0 (result !! ns)
    + length (filter (λ k, effectiveNamespace k = ns) ks).
Proof.
  revert result. induction ks as [|k ks IH]; intros result; simpl; [lia|].
  etrans; [apply IH|]. pose proof (bucketSize_filterKey result k ns) as H.
  rewrite filter_cons. destruct (decide (effectiveNamespace k = ns)); simpl; lia.
Qed.

(** X9: a bucket never holds more entries than there are key occurrences
    resolving to its namespace. *)
Theorem bucket_size_bounded (data : ExtractionResults) (ns : Namespace) (b : Bucket) :
  filterExtractionResult data !! ns = Some b →
  size b ≤ length (filter (λ k, effectiveNamespace k = ns) (allKeys data)).
Proof.
  intros Hb. unfold filterExtractionResult in Hb. rewrite filterInto_allKeys in Hb.
  pose proof (bucketSize_fold (allKeys data) ∅ ns) as H.
  rewrite Hb, lookup_empty in H. simpl in H. lia.
Qed.

Lemma bucket_size_bounded_witness :
  size ({[ "x" := Some "second" ]} : Bucket)
  ≤ length (filter (λ k, effectiveNamespace k = Named "ns") (allKeys scenarioD)).
Proof.
  apply (bucket_size_bounded scenarioD (Named "ns")). by vm_compute.
Defined.

(** * Properties of the logger *)

Lemma SYMBOLS_in_bounds i : is_Some (Logger.SYMBOLS !! (i mod 4)).
Proof.
  apply lookup_lt_is_Some. simpl.
  pose proof (Nat.mod_upper_bound i 4). lia.
Qed.

(** X10: on a terminal, as long as the promise is pending the [n]-th firing
    of the timer writes the frame of symbol [n mod 4]: the animation has
    period four and the index never leaves the table of symbols. *)
Theorem spinner_frames (comment : string) (n : nat) :
  Logger.loadingRun comment (Logger.loading true comment)
                    (replicate n Logger.Tick)
  = Logger.mkLoading true true true (n mod 4)
      ((λ i, Logger.frame comment (i mod 4)) <$> seq 0 n)
  ∧ ∀ i, i < n → is_Some (Logger.SYMBOLS !! (i mod 4)).
Proof.
  split; [|intros i _; apply SYMBOLS_in_bounds].
  induction n as [|n IH]; [done|].
  unfold Logger.loadingRun in *.
  rewrite replicate_S_end, fold_left_app, IH, seq_S, fmap_app.
  cbn [fold_left Logger.loadingStep Logger.interval Logger.tty Logger.pending
       Logger.symbolPosition Logger.written fmap list_fmap Nat.add].
  f_equal. rewrite Nat.Div0.add_mod_idemp_l. f_equal. lia.
Qed.

Lemma loadingStep_settled comment s ev :
  Logger.pending s = false → Logger.interval s = false →
  Logger.loadingStep comment s ev = s.
Proof.
  intros Hp Hi. destruct ev; simpl; by rewrite ?Hp, ?Hi.
Qed.

Lemma loadingRun_settled comment s evs :
  Logger.pending s = false → Logger.interval s = false →
  Logger.loadingRun comment s evs = s.
Proof.
  intros Hp Hi. unfold Logger.loadingRun.
  induction evs as [|ev evs IH]; simpl; [done|].
  by rewrite loadingStep_settled.
Qed.

Lemma loadingRun_app comment s evs1 evs2 :
  Logger.loadingRun comment s (evs1 ++ evs2)
  = Logger.loadingRun comment (Logger.loadingRun comment s evs1) evs2.
Proof. unfold Logger.loadingRun. apply fold_left_app. Qed.

Lemma loadingRun_ticks comment s evs :
  Forall (λ ev, ev = Logger.Tick) evs →
  Logger.pending (Logger.loadingRun comment s evs) = Logger.pending s
  ∧ Logger.tty (Logger.loadingRun comment s evs) = Logger.tty s.
Proof.
  unfold Logger.loadingRun. intros H. revert s.
  induction H as [|ev evs -> _ IH]; intros s; cbn [fold_left]; [done|].
  destruct (IH (Logger.loadingStep comment s Logger.Tick)) as [-> ->].
  simpl. by destruct (Logger.interval s).
Qed.

(** X11: once the promise settles the status line is written and nothing
    after it: the timer is cleared, later firings write nothing, and the
    status line is the last chunk whatever follows. *)
Theorem settle_ends_loading (isTTY : bool) (comment : string)
    (pre post : list Logger.LoadingEvent) (ok : bool) :
  Forall (λ ev, ev = Logger.Tick) pre →
  Logger.written
    (Logger.loadingRun comment (Logger.loading isTTY comment)
       (pre ++ Logger.Settle ok :: post))
  = Logger.written
      (Logger.loadingRun comment (Logger.loading isTTY comment) pre)
    ++ [Logger.statusLine isTTY comment ok].
Proof.
  intros Hpre. rewrite loadingRun_app.
  destruct (loadingRun_ticks comment (Logger.loading isTTY comment) pre Hpre)
    as [Hp Ht].
  assert (Logger.pending (Logger.loading isTTY comment) = true) as Hp0
    by by destruct isTTY.
  assert (Logger.tty (Logger.loading isTTY comment) = isTTY) as Ht0
    by by destruct isTTY.
  rewrite Hp0 in Hp. rewrite Ht0 in Ht.
  set (s := Logger.loadingRun comment (Logger.loading isTTY comment) pre) in *.
  change (Logger.loadingRun comment s (Logger.Settle ok :: post))
    with (Logger.loadingRun comment
            (Logger.loadingStep comment s (Logger.Settle ok)) post).
  rewrite loadingRun_settled; simpl; rewrite Hp; simpl; [|done|done].
  by rewrite Ht.
Qed.

Lemma settle_ends_loading_witness :
  Logger.written
    (Logger.loadingRun "Fetching" (Logger.loading true "Fetching")
       ([Logger.Tick; Logger.Tick]
        ++ Logger.Settle true :: [Logger.Tick; Logger.Settle false]))
  = Logger.written
      (Logger.loadingRun "Fetching" (Logger.loading true "Fetching")
         [Logger.Tick; Logger.Tick])
    ++ [Logger.statusLine true "Fetching" true].
Proof.
  apply (settle_ends_loading true "Fetching" [Logger.Tick; Logger.Tick]
           [Logger.Tick; Logger.Settle false] true).
  by repeat constructor.
Defined.

Lemma loadingRun_no_timer comment s evs :
  Logger.interval s = false →
  Forall (λ ev, ev = Logger.Tick) evs →
  Logger.loadingRun comment s evs = s.
Proof.
  intros Hi H. unfold Logger.loadingRun.
  induction H as [|ev evs -> _ IH]; simpl; [done|]. by rewrite Hi.
Qed.

(** X12: without a terminal, [loading] writes the comment and, when the
    promise settles, one line saying whether it succeeded; nothing else,
    whenever the promise settles and whatever happens afterwards. *)
Theorem loading_without_terminal (comment : string)
    (pre post : list Logger.LoadingEvent) (ok : bool) :
  Forall (λ ev, ev = Logger.Tick) pre →
  Logger.written
    (Logger.loadingRun comment (Logger.loading false comment)
       (pre ++ Logger.Settle ok :: post))
  = [comment; Logger.statusLine false comment ok].
Proof.
  intros Hpre. rewrite loadingRun_app.
  rewrite (loadingRun_no_timer comment (Logger.loading false comment) pre)
    by done.
  change (Logger.loadingRun comment (Logger.loading false comment)
            (Logger.Settle ok :: post))
    with (Logger.loadingRun comment
            (Logger.loadingStep comment (Logger.loading false comment)
               (Logger.Settle ok)) post).
  by rewrite loadingRun_settled.
Qed.

Lemma loading_without_terminal_witness :
  Logger.written
    (Logger.loadingRun "Fetching" (Logger.loading false "Fetching")
       ([Logger.Tick] ++ Logger.Settle false :: [Logger.Settle true]))
  = ["Fetching"; Logger.statusLine false "Fetching" false].
Proof.
  apply (loading_without_terminal "Fetching" [Logger.Tick]
           [Logger.Settle true] false).
  by repeat constructor.
Defined.

(** X13: [exitWithError] always ends the process with status 1 after the
    error line and leaves the debug flag alone. It prints the stack after
    that line exactly when debugging is enabled and the stack is a non-empty
    string; otherwise the error line is all it prints. *)
Theorem exitWithError_output (getStackTrace : option string)
    (err : string + Logger.JsError) (p : Logger.Process) :
  ∃ rest,
    Logger.exitWithError getStackTrace err p
    = (1%Z, Logger.mkProcess (Logger.debugEnabled p)
              (Logger.effects p
               ++ Logger.ConsoleLog
                    ("🔴 " +:+ match err with
                               | inl s => s
                               | inr e => Logger.message e
                               end) :: rest))
    ∧ (∀ s, match err with
            | inl _ => getStackTrace
            | inr e => Logger.stack e
            end = Some s →
            s ≠ EmptyString →
            Logger.flag (Logger.debugEnabled p) = true →
            rest = [Logger.ConsoleLog s])
    ∧ (Logger.flag (Logger.debugEnabled p) = false
       ∨ truthy match err with
                | inl _ => getStackTrace
                | inr e => Logger.stack e
                end = false →
       rest = []).
Proof.
  set (msg := match err with inl s => s | inr e => Logger.message e end).
  set (st := match err with inl _ => getStackTrace | inr e => Logger.stack e end).
  exists (if Logger.flag (Logger.debugEnabled p) && truthy st
          then [Logger.ConsoleLog (default EmptyString st)] else []).
  split_and!.
  - unfold Logger.exitWithError, Logger.error, Logger.emit.
    assert (match err with
            | inl s => (s, getStackTrace)
            | inr e => (Logger.message e, Logger.stack e)
            end = (msg, st)) as -> by by destruct err.
    simpl. destruct st as [s|]; simpl.
    + destruct (Logger.flag (Logger.debugEnabled p) && negb (String.eqb s EmptyString));
        simpl; [|done]. by rewrite <- app_assoc.
    + by rewrite andb_false_r.
  - intros s -> Hs ->. apply truthy_Some in Hs. by rewrite Hs.
  - intros [->| ->]; [done|]. by rewrite andb_false_r.
Qed.

Lemma exitWithError_output_witness :
  Logger.exitWithError (Some "at main") (inl "boom")
    (Logger.setDebug (Some true) Logger.initial)
  = (1%Z, Logger.mkProcess (Some true)
            [Logger.ConsoleLog "🔴 boom"; Logger.ConsoleLog "at main"]).
Proof.
  destruct (exitWithError_output (Some "at main") (inl "boom")
              (Logger.setDebug (Some true) Logger.initial))
    as (rest & Heq & Hstack & _).
  rewrite Heq. by rewrite (Hstack "at main").
Defined.

(** * Properties of the entry point *)

Lemma prefix_tgpak rest : String.prefix "tgpak_" ("tgpak_" +:+ rest) = true.
Proof. simpl. by destruct rest. Qed.

Lemma preHandler_decision_aux verbose opts p :
  Index.preHandler verbose opts p
  = (Logger.Returned (), Logger.setDebug verbose p)
  ∨ Index.preHandler verbose opts p
    = (Logger.Exited 1,
       Logger.error "Project ID is required when not using a Project API Key." p).
Proof.
  unfold Index.preHandler.
  destruct (Index.apiKey opts) as [key|]; [|by left].
  case_bool_decide; [|by left].
  destruct (String.prefix "tgpak_" key); simpl; [by left | by right].
Qed.

(** X14: the pre-action hook stops the process, with status 1 and one
    error line, exactly when the command has an API key option, the project
    is [-1] and the key does not start with [tgpak_]; in particular a key
    that starts with [tgpak_] is accepted whatever the project. In every
    other case it returns, having logged nothing and set the debug flag to
    the verbose option. *)
Theorem preHandler_decision (verbose : option bool) (opts : Index.Opts)
    (p : Logger.Process) :
  (fst (Index.preHandler verbose opts p) = Logger.Exited 1
   ↔ ∃ key, Index.apiKey opts = Some key
            ∧ Index.project opts = Some (-1)%Z
            ∧ String.prefix "tgpak_" key = false)
  ∧ (fst (Index.preHandler verbose opts p) = Logger.Exited 1 →
     ∃ msg, snd (Index.preHandler verbose opts p) = Logger.error msg p)
  ∧ (fst (Index.preHandler verbose opts p) ≠ Logger.Exited 1 →
     Index.preHandler verbose opts p
     = (Logger.Returned (), Logger.setDebug verbose p))
  ∧ (∀ rest,
       Index.preHandler verbose
         (Index.mkOpts (Some ("tgpak_" +:+ rest)) (Index.project opts)) p
       = (Logger.Returned (), Logger.setDebug verbose p)).
Proof.
  unfold Index.preHandler. split_and!.
  - destruct (Index.apiKey opts) as [key|]; simpl.
    + case_bool_decide as Hp.
      * destruct (String.prefix "tgpak_" key) eqn:Hk; simpl.
        -- split; [done|]. intros (k & [= <-] & _ & ?). congruence.
        -- split; [|done]. intros _. by exists key.
      * split; [done|]. by intros (k & _ & ? & _).
    + split; [done|]. by intros (k & ? & _).
  - destruct (Index.apiKey opts) as [key|]; simpl; [|done].
    case_bool_decide; [|done].
    destruct (String.prefix "tgpak_" key); simpl; [done|]. by eauto.
  - destruct (Index.apiKey opts) as [key|]; simpl; [|done].
    case_bool_decide; [|done].
    by destruct (String.prefix "tgpak_" key).
  - intros rest. cbn [Index.apiKey Index.project].
    rewrite prefix_tgpak. simpl. by case_bool_decide.
Qed.

Lemma preHandler_decision_witness :
  fst (Index.preHandler (Some true) (Index.mkOpts (Some "tgpat_user") (Some (-1)%Z))
         Logger.initial) = Logger.Exited 1
  ∧ ∃ msg, snd (Index.preHandler (Some true)
                  (Index.mkOpts (Some "tgpat_user") (Some (-1)%Z)) Logger.initial)
           = Logger.error msg Logger.initial.
Proof.
  destruct (preHandler_decision (Some true)
              (Index.mkOpts (Some "tgpat_user") (Some (-1)%Z)) Logger.initial)
    as (Hiff & Hmsg & _ & _).
  assert (fst (Index.preHandler (Some true)
                 (Index.mkOpts (Some "tgpat_user") (Some (-1)%Z)) Logger.initial)
          = Logger.Exited 1) as Hexit.
  { apply Hiff. by exists "tgpat_user". }
  split; [done|]. by apply Hmsg.
Defined.

(** X15: after the hook has returned, debug messages are logged exactly
    when the verbose option is set: with the option unset or false a debug
    call leaves no trace. *)
Theorem verbose_enables_debug (verbose : option bool) (opts : Index.Opts)
    (p : Logger.Process) (msg : string) :
  fst (Index.preHandler verbose opts p) = Logger.Returned () →
  Logger.effects (Logger.debug msg (snd (Index.preHandler verbose opts p)))
  = Logger.effects p
    ++ (if Logger.flag verbose then [Logger.ConsoleLog ("⚪ " +:+ msg)] else []).
Proof.
  intros Hret.
  destruct (preHandler_decision_aux verbose opts p) as [Heq|Heq];
    rewrite Heq in *; [|done].
  unfold Logger.debug, Logger.setDebug. simpl.
  destruct (Logger.flag verbose); simpl; [done|]. by rewrite app_nil_r.
Qed.

Lemma verbose_enables_debug_witness :
  Logger.effects
    (Logger.debug "fetching"
       (snd (Index.preHandler None (Index.mkOpts (Some "tgpak_abc") (Some (-1)%Z))
               Logger.initial)))
  = Logger.effects Logger.initial ++ [].
Proof.
  apply (verbose_enables_debug None
           (Index.mkOpts (Some "tgpak_abc") (Some (-1)%Z)) Logger.initial
           "fetching").
  reflexivity.
Defined.

(** X16: when parsing or a command throws, [run] ends the process with
    status 1. For an HTTP error whose status is 500 or more it logs a single
    line, the one about temporary unavailability exactly for status 503,
    and never shows the error itself; for every other error it logs the
    message of the error and dumps the error. When nothing is thrown it
    logs nothing. *)
Theorem run_reports_failure (e : Logger.JsError) (p : Logger.Process) :
  fst (Index.run (Logger.Threw e) p) = Logger.Exited 1
  ∧ (∀ status, Logger.httpStatus e = Some status → (500 ≤ status)%Z →
       ∃ text,
         Logger.effects (snd (Index.run (Logger.Threw e) p))
         = Logger.effects p ++ [Logger.ConsoleLog text]
         ∧ (text = "🔴 The Tolgee server is temporarily unavailable. Please try again later."
            ↔ status = 503%Z))
  ∧ ((∀ status, Logger.httpStatus e = Some status → (status < 500)%Z) →
     Logger.effects (snd (Index.run (Logger.Threw e) p))
     = Logger.effects p
       ++ [Logger.ConsoleLog ("🔴 Uncaught Error: " +:+ Logger.message e);
           Logger.ConsoleDump e])
  ∧ Index.run (Logger.Returned ()) p = (Logger.Returned (), p).
Proof.
  unfold Index.run. split_and!; [| | |done].
  - destruct (Logger.httpStatus e) as [status|]; [|done].
    by repeat case_bool_decide.
  - intros status -> Hge. case_bool_decide as H503.
    + eexists. split; [reflexivity|]. by split.
    + rewrite bool_decide_eq_true_2 by done.
      eexists. split; [reflexivity|]. split; [by intros [=] | done].
  - intros Hlt. destruct (Logger.httpStatus e) as [status|] eqn:He.
    + specialize (Hlt status eq_refl).
      rewrite bool_decide_eq_false_2 by lia.
      rewrite bool_decide_eq_false_2 by lia.
      simpl. by rewrite <- app_assoc.
    + simpl. by rewrite <- app_assoc.
Qed.

Lemma run_reports_failure_witness :
  (∃ text,
     Logger.effects
       (snd (Index.run (Logger.Threw (Logger.mkError "Bad Gateway" None None (Some 502%Z)))
               Logger.initial))
     = Logger.effects Logger.initial ++ [Logger.ConsoleLog text]
     ∧ (text = "🔴 The Tolgee server is temporarily unavailable. Please try again later."
        ↔ 502%Z = 503%Z))
  ∧ Logger.effects
      (snd (Index.run (Logger.Threw (Logger.mkError "Not Found" None None (Some 404%Z)))
              Logger.initial))
    = Logger.effects Logger.initial
      ++ [Logger.ConsoleLog ("🔴 Uncaught Error: " +:+ "Not Found");
          Logger.ConsoleDump (Logger.mkError "Not Found" None None (Some 404%Z))].
Proof.
  split.
  - apply (proj1 (proj2 (run_reports_failure
                           (Logger.mkError "Bad Gateway" None None (Some 502%Z))
                           Logger.initial)) 502%Z); [reflexivity|lia].
  - apply (proj1 (proj2 (proj2 (run_reports_failure
                                  (Logger.mkError "Not Found" None None (Some 404%Z))
                                  Logger.initial)))).
    intros status [= <-]. lia.
Defined.

(** * Properties of the pull command *)

#[local] Set Warnings "-clear-no-such-hyp".

Lemma effects_emit e p :
  Logger.effects (Logger.emit e p) = Logger.effects p ++ [e].
Proof. done. Qed.

Ltac validatePath_cases stat path overwrite isTTY askBoolean rm :=
  unfold Pull.validatePath, Pull.validatePathBody;
  destruct (stat path) as [[[]]|?] eqn:Hstat; simpl;
  [ destruct (Logger.flag overwrite) eqn:Hoverwrite; simpl;
    [ | destruct isTTY eqn:HisTTY; simpl;
        [ destruct (askBoolean Pull.overwriteQuestion) as [[]|?] eqn:Hask; simpl;
          [ destruct (rm path) as [[]|?] eqn:Hrm; simpl | | ]
        | ] ]
  | | ];
  try case_bool_decide; simpl;
  unfold Logger.error, Logger.warn;
  rewrite ?effects_emit, <- ?app_assoc; simpl.

(** X17: [validatePath] removes something only in one case, and then only
    the path it was given: the path is an existing directory, the overwrite
    option is not set, the output is a terminal and the user answered yes.
    In particular nothing is removed without a terminal, and nothing is
    removed when the overwrite option is set. *)
Theorem purge_only_on_confirmation
    (stat : string → Pull.Call Pull.Stats) (isTTY : bool)
    (askBoolean : string → Pull.Call bool) (rm : string → Pull.Call unit)
    (resolve : string → string) (path : string) (overwrite : option bool)
    (p : Logger.Process) :
  ∃ added,
    Logger.effects
      (snd (Pull.validatePath stat isTTY askBoolean rm resolve path overwrite p))
    = Logger.effects p ++ added
    ∧ ∀ target,
        Logger.Remove target ∈ added
        ↔ target = path
          ∧ stat path = Pull.Yields (Pull.mkStats true)
          ∧ Logger.flag overwrite = false
          ∧ isTTY = true
          ∧ askBoolean Pull.overwriteQuestion = Pull.Yields true.
Proof.
  validatePath_cases stat path overwrite isTTY askBoolean rm.
  all: try (eexists; split; [reflexivity|]).
  all: try (exists []; split; [by rewrite app_nil_r|]).
  all: intros target; rewrite ?elem_of_cons, ?elem_of_nil.
  all: naive_solver.
Qed.

(** X18: [validatePath] asks the user only when the path is an existing
    directory, the overwrite option is not set and the output is a
    terminal, and then it asks the overwrite question once. *)
Theorem prompt_only_when_interactive
    (stat : string → Pull.Call Pull.Stats) (isTTY : bool)
    (askBoolean : string → Pull.Call bool) (rm : string → Pull.Call unit)
    (resolve : string → string) (path : string) (overwrite : option bool)
    (p : Logger.Process) :
  ∃ added,
    Logger.effects
      (snd (Pull.validatePath stat isTTY askBoolean rm resolve path overwrite p))
    = Logger.effects p ++ added
    ∧ length (filter (λ e, Logger.isPrompt e = true) added) ≤ 1
    ∧ ∀ question,
        Logger.Prompt question ∈ added
        ↔ question = Pull.overwriteQuestion
          ∧ stat path = Pull.Yields (Pull.mkStats true)
          ∧ Logger.flag overwrite = false
          ∧ isTTY = true.
Proof.
  validatePath_cases stat path overwrite isTTY askBoolean rm.
  all: try (eexists; split; [reflexivity|]).
  all: try (exists []; split; [by rewrite app_nil_r|]).
  all: (split; [vm_compute; lia|]).
  all: intros question; rewrite ?elem_of_cons, ?elem_of_nil.
  all: naive_solver.
Qed.

(** X19: [validatePath] never throws an error whose code is [ENOENT]:
    what it throws was thrown by [stat], by the prompt or by [rm] and has
    another code. A path that does not exist is accepted in silence. *)
Theorem validatePath_errors
    (stat : string → Pull.Call Pull.Stats) (isTTY : bool)
    (askBoolean : string → Pull.Call bool) (rm : string → Pull.Call unit)
    (resolve : string → string) (path : string) (overwrite : option bool)
    (p : Logger.Process) (e : Logger.JsError) :
  (fst (Pull.validatePath stat isTTY askBoolean rm resolve path overwrite p)
   = Logger.Threw e →
   Logger.code e ≠ Some "ENOENT"
   ∧ (stat path = Pull.Fails e
      ∨ askBoolean Pull.overwriteQuestion = Pull.Fails e
      ∨ rm path = Pull.Fails e))
  ∧ (stat path = Pull.Fails e →
     Logger.code e = Some "ENOENT" →
     Pull.validatePath stat isTTY askBoolean rm resolve path overwrite p
     = (Logger.Returned (), p)).
Proof.
  split.
  - validatePath_cases stat path overwrite isTTY askBoolean rm.
    all: naive_solver.
  - intros Hstat Hcode. unfold Pull.validatePath, Pull.validatePathBody.
    rewrite Hstat. simpl. by rewrite bool_decide_eq_false_2 by naive_solver.
Qed.

Lemma validatePath_errors_witness :
  Logger.code (Logger.mkError "permission denied" None (Some "EACCES") None)
  ≠ Some "ENOENT"
  ∧ Pull.validatePath
      (λ _, Pull.Fails (Logger.mkError "no such file" None (Some "ENOENT") None))
      false (λ _, Pull.Yields true) (λ _, Pull.Yields ()) id "i18n" None
      Logger.initial
    = (Logger.Returned (), Logger.initial).
Proof.
  split.
  - apply (proj1 (validatePath_errors
                    (λ _, Pull.Fails (Logger.mkError "permission denied" None
                                        (Some "EACCES") None))
                    false (λ _, Pull.Yields true) (λ _, Pull.Yields ()) id
                    "i18n" None Logger.initial
                    (Logger.mkError "permission denied" None (Some "EACCES") None))).
    reflexivity.
  - apply (proj2 (validatePath_errors
                    (λ _, Pull.Fails (Logger.mkError "no such file" None
                                        (Some "ENOENT") None))
                    false (λ _, Pull.Yields true) (λ _, Pull.Yields ()) id
                    "i18n" None Logger.initial
                    (Logger.mkError "no such file" None (Some "ENOENT") None)));
      reflexivity.
Defined.

(** X20: when [validatePath] stops the process, the status is 1, the last
    thing it printed is an error line, and it has removed nothing. *)
Theorem validatePath_exit
    (stat : string → Pull.Call Pull.Stats) (isTTY : bool)
    (askBoolean : string → Pull.Call bool) (rm : string → Pull.Call unit)
    (resolve : string → string) (path : string) (overwrite : option bool)
    (p : Logger.Process) (status : Z) :
  fst (Pull.validatePath stat isTTY askBoolean rm resolve path overwrite p)
  = Logger.Exited status →
  status = 1%Z
  ∧ ∃ before msg,
      Logger.effects
        (snd (Pull.validatePath stat isTTY askBoolean rm resolve path overwrite p))
      = Logger.effects p ++ before ++ [Logger.ConsoleLog ("🔴 " +:+ msg)]
      ∧ ∀ target, Logger.Remove target ∉ before.
Proof.
  validatePath_cases stat path overwrite isTTY askBoolean rm.
  all: try (by intros [=]).
  all: intros [= <-]; (split; [done|]).
  - eexists [_; _], _. split; [reflexivity|].
    intros target. rewrite !elem_of_cons, elem_of_nil. naive_solver.
  - exists [], "The specified path already exists.". split; [reflexivity|].
    intros target. apply not_elem_of_nil.
  - exists [], "The specified path already exists and is not a directory.".
    split; [reflexivity|]. intros target. apply not_elem_of_nil.
Qed.

Lemma validatePath_exit_witness :
  ∃ before msg,
    Logger.effects
      (snd (Pull.validatePath (λ _, Pull.Yields (Pull.mkStats true)) true
              (λ _, Pull.Yields false) (λ _, Pull.Yields ()) id "i18n" None
              Logger.initial))
    = Logger.effects Logger.initial ++ before
      ++ [Logger.ConsoleLog ("🔴 " +:+ msg)]
    ∧ ∀ target, Logger.Remove target ∉ before.
Proof.
  apply (validatePath_exit (λ _, Pull.Yields (Pull.mkStats true)) true
           (λ _, Pull.Yields false) (λ _, Pull.Yields ()) id "i18n" None
           Logger.initial 1%Z).
  reflexivity.
Defined.
